(** * Conversation memory and context retrieval of the assistant cog

    A shallow embedding of [assistant/common/utils.py] and
    [assistant/models.py].

    Conventions of the embedding:
    - Python [int] is [Z], Python [str] is [string]; a Python [float] is
      an exact rational [Q].  The two float products of the source,
      [max_tokens * 0.95] and [max_tokens * 0.9], are the rationals
      [95 * max_tokens / 100] and [9 * max_tokens / 10].
    - The tokenizer ([tiktoken]'s [cl100k_base]), the similarity measure
      ([openai.embeddings_utils.cosine_similarity]) and the clock
      ([datetime.now().timestamp()]) are libraries outside the
      repository: the tokenizer and the similarity are section
      variables, the clock reading is an argument [now].
    - A Python exception is a value [Raise e] of the type [result].
    - The message dicts of a conversation are objects of a store
      ([list message], the index being the identity of the dict), so
      that two lists holding the same dict see each other's writes. *)

From Stdlib Require Import ZArith QArith String Ascii List Lia DecimalString.
From stdpp Require Import base list sorting strings gmap.
Import ListNotations.

Open Scope string_scope.
Open Scope list_scope.
Open Scope Z_scope.

(** ** Exceptions

    [exn] stands for the instances of [Exception], which is what
    [except Exception] catches. *)

Inductive exn : Type :=
  | IndexError
  | ValidationError
  | ProviderError (code : Z).

Inductive result (A : Type) : Type :=
  | Ok (a : A)
  | Raise (e : exn).

Arguments Ok {A} a.
Arguments Raise {A} e.

#[global] Instance result_ret : MRet result := λ A a, Ok a.
#[global] Instance result_bind : MBind result := λ A B k m,
  match m with
  | Ok a => k a
  | Raise e => Raise e
  end.

(** [l[0]], which raises [IndexError] on the empty list. *)
Definition item0 {A : Type} (l : list A) : result A :=
  match l with
  | [] => Raise IndexError
  | x :: _ => Ok x
  end.

(** [bool(s)] of a string: the empty string is falsy. *)
Definition truthy (s : string) : bool :=
  match s with
  | EmptyString => false
  | String _ _ => true
  end.

(** [round(n / d)] for [d > 0]: Python rounds a half to the even
    neighbour. *)
Definition py_round (n d : Z) : Z :=
  let q := n / d in
  let r := n mod d in
  if 2 * r <? d then q
  else if d <? 2 * r then q + 1
  else if Z.even q then q else q + 1.

(** ** common/utils.py *)

Module Utils.

Section Tokenizer.

Variable token : Type.
(** [encoding.encode] and [encoding.decode] *)
Variable encode : string → list token.
Variable decode : list token → string.

Definition num_tokens_from_string (s : string) : Z :=
  if truthy s then Z.of_nat (length (encode s)) else 0.

(** The [for token in tokens] loop of [token_pagify]; the state is
    [(token_chunks, current_chunk)]. *)
Fixpoint pagify_loop (max_tokens : Z) (tokens : list token)
    (token_chunks : list (list token)) (current_chunk : list token)
    : list (list token) * list token :=
  match tokens with
  | [] => (token_chunks, current_chunk)
  | tok :: rest =>
      let current_chunk := current_chunk ++ [tok] in
      if Z.of_nat (length current_chunk) =? max_tokens
      then pagify_loop max_tokens rest (token_chunks ++ [current_chunk]) []
      else pagify_loop max_tokens rest token_chunks current_chunk
  end.

(** [token_chunks] as it stands when the decoding loop starts. *)
Definition token_chunks_of (text : string) (max_tokens : Z) : list (list token) :=
  let '(token_chunks, current_chunk) :=
    pagify_loop max_tokens (encode text) [] [] in
  match current_chunk with
  | [] => token_chunks
  | _ :: _ => token_chunks ++ [current_chunk]
  end.

Definition token_pagify (text : string) (max_tokens : Z) : list string :=
  map decode (token_chunks_of text max_tokens).

End Tokenizer.

Section Provider.

(** [openai.embeddings_utils.get_embedding], run in a worker thread
    and awaited.  The provider is an oracle indexed by the number of
    calls made to it so far; a call returns a vector or raises. *)
Variable get_embedding : nat → string → result (list Q).

(** The [while tries < 3] loop of [get_embedding_async].  [remaining]
    is [3 - tries]; [calls] counts the calls made to the provider and
    is returned with the result. *)
Fixpoint embedding_loop (remaining : nat) (calls : nat) (text : string)
    : result (list Q) * nat :=
  match remaining with
  | O => (Ok [], calls)
  | S remaining =>
      match get_embedding calls text with
      | Ok embedding => (Ok embedding, S calls)
      | Raise _ => embedding_loop remaining (S calls) text
      end
  end.

Definition get_embedding_async (text : string) : result (list Q) * nat :=
  embedding_loop 3 0 text.

End Provider.

End Utils.

(** ** Python list operations used by models.py *)

(** [l[:n]] *)
Definition slice_to {A : Type} (l : list A) (n : Z) : list A :=
  if 0 <=? n then take (Z.to_nat n) l
  else take (Z.to_nat (Z.of_nat (length l) + n)) l.

(** [l[start:]] *)
Definition slice_from {A : Type} (l : list A) (start : Z) : list A :=
  if start <? 0 then drop (Z.to_nat (Z.of_nat (length l) + start)) l
  else drop (Z.to_nat start) l.

(** [l.sort(key=lambda x: x[1], reverse=True)]: a stable sort, larger
    keys first; entries with equal keys keep their order. *)
Fixpoint insert_desc {A : Type} (x : A * Q) (l : list (A * Q)) : list (A * Q) :=
  match l with
  | [] => [x]
  | y :: l' =>
      if Qle_bool (snd y) (snd x) then x :: y :: l'
      else y :: insert_desc x l'
  end.

Fixpoint sort_desc {A : Type} (l : list (A * Q)) : list (A * Q) :=
  match l with
  | [] => []
  | x :: l' => insert_desc x (sort_desc l')
  end.

(** [a] may stand before [b] in a descending list: the score of [b] is
    not larger. *)
Definition desc {A : Type} (a b : A * Q) : Prop := (snd b <= snd a)%Q.

(** The entries whose score equals [v]. *)
Definition tied {A : Type} (v : Q) (e : A * Q) : Prop := Qeq_bool (snd e) v = true.

#[global] Instance tied_dec {A : Type} (v : Q) (e : A * Q) : Decision (tied v e).
Proof. unfold tied. apply _. Defined.

(** [f"{n}"] for an int *)
Definition str_of_int (n : Z) : string := NilZero.string_of_int (Z.to_int n).

(** ** models.py *)

Module Models.

Record Embedding : Type := {
  text : string;
  embedding : list Q
}.

(** [embeddings] is a dict: an association list in insertion order,
    which is the order of [.values()]. *)
Record GuildSettings : Type := {
  system_prompt : string;
  prompt : string;
  embeddings : list (string * Embedding);
  top_n : Z;
  min_relatedness : Q;
  dynamic_embedding : bool;
  channel_id : Z;
  api_key : string;
  endswith_questionmark : bool;
  max_retention : Z;
  max_retention_time : Z;
  max_tokens : Z;
  min_length : Z;
  mention : bool;
  enabled : bool;
  model : string
}.

(** The defaults of the class body. *)
Definition GuildSettings_default : GuildSettings := {|
  system_prompt := "You are a helpful discord assistant named {botname}";
  prompt := "Current time: {timestamp}" +:+ String "010" "Discord server you are chatting in: {server}";
  embeddings := [];
  top_n := 3;
  min_relatedness := (75 # 100)%Q;
  dynamic_embedding := true;
  channel_id := 0;
  api_key := "";
  endswith_questionmark := false;
  max_retention := 0;
  max_retention_time := 1800;
  max_tokens := 4000;
  min_length := 7;
  mention := false;
  enabled := true;
  model := "gpt-3.5-turbo"
|}.

(** *** Construction of a [GuildSettings] from keyword arguments

    The class declares a type and a default for each field and nothing
    else: no validator, no constraint.  Construction takes each field
    from the arguments when it is there and has the declared type, and
    from the default when it is absent.  (The lenient conversions of
    the model library, a digit string for an int and the like, are left
    out: a value of another type raises [ValidationError].) *)

Inductive value : Type :=
  | VStr (s : string)
  | VInt (z : Z)
  | VFloat (q : Q)
  | VBool (b : bool)
  | VEmbeddings (d : list (string * Embedding)).

Fixpoint kwarg (name : string) (data : list (string * value)) : option value :=
  match data with
  | [] => None
  | (k, v) :: data' => if String.eqb k name then Some v else kwarg name data'
  end.

Definition field_str (data : list (string * value)) (name : string) (dflt : string)
    : result string :=
  match kwarg name data with
  | None => Ok dflt
  | Some (VStr s) => Ok s
  | Some _ => Raise ValidationError
  end.

Definition field_int (data : list (string * value)) (name : string) (dflt : Z)
    : result Z :=
  match kwarg name data with
  | None => Ok dflt
  | Some (VInt z) => Ok z
  | Some _ => Raise ValidationError
  end.

Definition field_float (data : list (string * value)) (name : string) (dflt : Q)
    : result Q :=
  match kwarg name data with
  | None => Ok dflt
  | Some (VFloat q) => Ok q
  | Some (VInt z) => Ok (inject_Z z)
  | Some _ => Raise ValidationError
  end.

Definition field_bool (data : list (string * value)) (name : string) (dflt : bool)
    : result bool :=
  match kwarg name data with
  | None => Ok dflt
  | Some (VBool b) => Ok b
  | Some _ => Raise ValidationError
  end.

Definition field_embeddings (data : list (string * value)) (name : string)
    (dflt : list (string * Embedding)) : result (list (string * Embedding)) :=
  match kwarg name data with
  | None => Ok dflt
  | Some (VEmbeddings d) => Ok d
  | Some _ => Raise ValidationError
  end.

Definition GuildSettings_init (data : list (string * value)) : result GuildSettings :=
  let d := GuildSettings_default in
  f1 ← field_str data "system_prompt" (system_prompt d);
  f2 ← field_str data "prompt" (prompt d);
  f3 ← field_embeddings data "embeddings" (embeddings d);
  f4 ← field_int data "top_n" (top_n d);
  f5 ← field_float data "min_relatedness" (min_relatedness d);
  f6 ← field_bool data "dynamic_embedding" (dynamic_embedding d);
  f7 ← field_int data "channel_id" (channel_id d);
  f8 ← field_str data "api_key" (api_key d);
  f9 ← field_bool data "endswith_questionmark" (endswith_questionmark d);
  f10 ← field_int data "max_retention" (max_retention d);
  f11 ← field_int data "max_retention_time" (max_retention_time d);
  f12 ← field_int data "max_tokens" (max_tokens d);
  f13 ← field_int data "min_length" (min_length d);
  f14 ← field_bool data "mention" (mention d);
  f15 ← field_bool data "enabled" (enabled d);
  f16 ← field_str data "model" (model d);
  Ok {| system_prompt := f1; prompt := f2; embeddings := f3; top_n := f4;
        min_relatedness := f5; dynamic_embedding := f6; channel_id := f7;
        api_key := f8; endswith_questionmark := f9; max_retention := f10;
        max_retention_time := f11; max_tokens := f12; min_length := f13;
        mention := f14; enabled := f15; model := f16 |}.

Definition with_max_tokens (z : Z) (c : GuildSettings) : GuildSettings :=
  {| system_prompt := system_prompt c; prompt := prompt c;
     embeddings := embeddings c; top_n := top_n c;
     min_relatedness := min_relatedness c;
     dynamic_embedding := dynamic_embedding c; channel_id := channel_id c;
     api_key := api_key c; endswith_questionmark := endswith_questionmark c;
     max_retention := max_retention c;
     max_retention_time := max_retention_time c; max_tokens := z;
     min_length := min_length c; mention := mention c; enabled := enabled c;
     model := model c |}.

(** *** GuildSettings.get_related_embeddings *)

Section Similarity.

(** [cosine_similarity(a, b)] *)
Variable cosine_similarity : list Q → list Q → Q.

(** The first list comprehension: every stored text with its
    similarity to the query, in storage order. *)
Definition strings_and_relatedness (self : GuildSettings) (query_embedding : list Q)
    : list (string * Q) :=
  map (λ i : Embedding, (text i, cosine_similarity query_embedding (embedding i)))
      (map snd (embeddings self)).

Definition get_related_embeddings (self : GuildSettings) (query_embedding : list Q)
    : list (string * Q) :=
  if (top_n self =? 0) || bool_decide (query_embedding = [])
     || bool_decide (embeddings self = [])
  then []
  else
    let scored := strings_and_relatedness self query_embedding in
    let scored := filter (λ i, Qle_bool (min_relatedness self) (snd i) = true) scored in
    let scored := sort_desc scored in
    slice_to scored (top_n self).

End Similarity.

(** *** Conversation *)

(** A message dict [{"role": ..., "content": ...}]. *)
Record message : Type := {
  role : string;
  content : string
}.

(** The store of message dicts: the dict with identity [l] is the
    [l]-th entry. *)
Abbreviation store := (list message).

Definition content_at (h : store) (l : nat) : string :=
  from_option content "" (h !! l).

(** [d["content"] = s] on the dict with identity [l] *)
Definition set_content (h : store) (l : nat) (s : string) : store :=
  match h !! l with
  | Some m => <[l := {| role := role m; content := s |}]> h
  | None => h
  end.

(** [messages] holds references to message dicts. *)
Record Conversation : Type := {
  messages : list nat;
  last_updated : Q
}.

Definition Conversation_default : Conversation :=
  {| messages := []; last_updated := 0%Q |}.

(** What a list of references shows to a reader. *)
Definition view (h : store) (refs : list nat) : list message :=
  omap (λ l, h !! l) refs.

(** [count > max_tokens * 0.95] *)
Definition over_budget (count max_tokens : Z) : bool :=
  95 * max_tokens <? 100 * count.

Section Conversation.

Variable token : Type.
Variable encode : string → list token.
Variable decode : list token → string.

(** [h] is the store of message dicts, [now] the clock reading. *)

Definition user_token_count (h : store) (self : Conversation) : Z :=
  let messages := foldr (λ l acc, content_at h l +:+ acc) "" (messages self) in
  Utils.num_tokens_from_string token encode messages.

Definition conversation_token_count (h : store) (self : Conversation)
    (conf : GuildSettings) : Z :=
  let initial := system_prompt conf +:+ prompt conf in
  Utils.num_tokens_from_string token encode initial + user_token_count h self.

Definition is_expired (now : Q) (self : Conversation) (conf : GuildSettings) : bool :=
  if max_retention_time conf =? 0 then false
  else negb (Qle_bool (now - last_updated self) (inject_Z (max_retention_time conf))).

Definition cleanup (now : Q) (self : Conversation) (conf : GuildSettings)
    : Conversation :=
  if is_expired now self conf || (max_retention conf =? 0)
  then {| messages := []; last_updated := last_updated self |}
  else if negb (max_retention conf =? 0)
  then {| messages := slice_from (messages self) (- max_retention conf);
          last_updated := last_updated self |}
  else self.

Definition reset (now : Q) (self : Conversation) : Conversation :=
  {| messages := []; last_updated := now |}.

(** The new dict is a fresh object of the store. *)
Definition update_messages (now : Q) (h : store) (self : Conversation)
    (message role : string) : store * Conversation :=
  (h ++ [{| role := role; content := message |}],
   {| messages := messages self ++ [length h]; last_updated := now |}).

(** The [while] loop of [prepare_chat]: [messages.pop(0)] as long as
    the count is over the budget and more than one message is left.
    The loop writes to no dict, so the store is the same throughout. *)
Fixpoint drop_oldest (h : store) (conf : GuildSettings) (last_upd : Q)
    (msgs : list nat) : list nat :=
  match msgs with
  | _ :: ((_ :: _) as rest) =>
      if over_budget
           (conversation_token_count h
              {| messages := msgs; last_updated := last_upd |} conf)
           (max_tokens conf)
      then drop_oldest h conf last_upd rest
      else msgs
  | _ => msgs
  end.

(** [prepared.append({...})] when the prompt is not empty: a fresh
    dict is allocated and its reference appended. *)
Definition append_prompt (h : store) (prepared : list nat) (r p : string)
    : store * list nat :=
  if truthy p
  then (h ++ [{| role := r; content := p |}], prepared ++ [length h])
  else (h, prepared).

(** Returns the list [prepared] (of references), the store and the
    conversation after the call. *)
Definition prepare_chat (h : store) (self : Conversation) (conf : GuildSettings)
    (system_prompt initial_prompt : string)
    : result (list nat * store * Conversation) :=
  let '(h, prepared) := append_prompt h [] "system" system_prompt in
  let '(h, prepared) := append_prompt h prepared "user" initial_prompt in
  let prepared := prepared ++ messages self in
  let self := {| messages := drop_oldest h conf (last_updated self) (messages self);
                 last_updated := last_updated self |} in
  if over_budget (conversation_token_count h self conf) (max_tokens conf)
  then
    m0 ← item0 (messages self);
    let chunks :=
      Utils.token_pagify token encode decode (content_at h m0)
        (py_round (9 * max_tokens conf) 10) in
    c0 ← item0 chunks;
    Ok (prepared, set_content h m0 c0, self)
  else Ok (prepared, h, self).

(** The token count of a sequence of turns as a reader of the store
    sees it, by the measure of [user_token_count]. *)
Definition tokens_of (h : store) (refs : list nat) : Z :=
  user_token_count h {| messages := refs; last_updated := 0%Q |}.

End Conversation.

(** *** Conversations *)

Record Member : Type := {
  id : Z;
  guild_id : Z
}.

(** The dict [conversations] maps a key to a reference to a
    [Conversation] object. *)
Record Conversations : Type := {
  conversations : gmap string nat
}.

(** The store of [Conversation] objects. *)
Abbreviation objects := (list Conversation).

Definition conversation_key (member : Member) : string :=
  str_of_int (id member) +:+ str_of_int (guild_id member).

(** Returns the reference, the registry and the object store after the
    call. *)
Definition get_conversation (self : Conversations) (objs : objects) (member : Member)
    : nat * Conversations * objects :=
  let key := conversation_key member in
  match conversations self !! key with
  | Some c => (c, self, objs)
  | None =>
      (length objs,
       {| conversations := <[key := length objs]> (conversations self) |},
       objs ++ [Conversation_default])
  end.

End Models.

(** *** DB *)

Module Database.

(** A guild, by the one attribute [get_conf] reads. *)
Record Guild : Type := {
  id : Z
}.

(** The dict [configs] maps a guild id to a reference to a
    [GuildSettings] object. *)
Record DB : Type := {
  configs : gmap Z nat
}.

(** The store of [GuildSettings] objects. *)
Abbreviation settings := (list Models.GuildSettings).

(** Returns the reference, the database and the object store after the
    call. *)
Definition get_conf (self : DB) (objs : settings) (guild : Guild)
    : nat * DB * settings :=
  match configs self !! id guild with
  | Some c => (c, self, objs)
  | None =>
      (length objs,
       {| configs := <[id guild := length objs]> (configs self) |},
       objs ++ [Models.GuildSettings_default])
  end.

End Database.

(** A dict of references into a store of [n] objects is in order when
    every reference points into the store and no two keys share one. *)
Definition registry_ok `{Countable K} (m : gmap K nat) (n : nat) : Prop :=
  (∀ k c, m !! k = Some c → (c < n)%nat)
  ∧ (∀ k1 k2 c, m !! k1 = Some c → m !! k2 = Some c → k1 = k2).

(** The turn a non-empty prompt adds to [prepared], none for an empty
    prompt. *)
Definition prompt_turn (r p : string) : list Models.message :=
  if truthy p then [{| Models.role := r; Models.content := p |}] else [].

(** ** common/utils.py: message text and the pages of embeddings

    A character of a string is one [ascii].  The whitespace class of
    [str.strip()] is a parameter [isspace]. *)

Module Discord.

Inductive Colour : Type := blue | purple.

Record EmbedField : Type := {
  name : string;
  value : string;
  inline : bool
}.

(** An embed, by the attributes the code reads and writes.  [None]
    stands for an attribute that is not set; the footer is its text. *)
Record Embed : Type := {
  title : option string;
  description : option string;
  colour : option Colour;
  footer : option string;
  fields : list EmbedField
}.

Record Message : Type := {
  content : string;
  embeds : list Embed
}.

End Discord.

Module Formatting.

Import Discord.

Definition newline : string := String "010" "".

(** The marker of the selected entry, as its UTF-8 bytes, and a
    space. *)
Definition marker : string := "➣ ".

Section Strip.

Variable isspace : ascii → bool.

Fixpoint lstrip (s : string) : string :=
  match s with
  | EmptyString => EmptyString
  | String a s' => if isspace a then lstrip s' else s
  end.

Fixpoint rstrip (s : string) : string :=
  match s with
  | EmptyString => EmptyString
  | String a s' =>
      match rstrip s' with
      | EmptyString => if isspace a then EmptyString else String a EmptyString
      | String b r => String a (String b r)
      end
  end.

(** [s.strip()] *)
Definition strip (s : string) : string := rstrip (lstrip s).

(** [if x := attr: content += f"{x}\n"]: nothing is added for an
    attribute that is not set or is empty. *)
Definition add_line (content : string) (attr : option string) : string :=
  match attr with
  | Some x => if truthy x then content +:+ (x +:+ newline) else content
  | None => content
  end.

Definition add_field (content : string) (field : EmbedField) : string :=
  content +:+ (name field +:+ newline +:+ value field +:+ newline).

(** One turn of the loop over the embeds. *)
Definition add_embed (content : string) (embed : Embed) : string :=
  let content := add_line content (title embed) in
  let content := add_line content (description embed) in
  let content := foldl add_field content (fields embed) in
  add_line content (footer embed).

Definition extract_embed_content (embeds : list Embed) : string :=
  strip (foldl add_embed "" embeds).

(** The first [if] appends the local [content], which is empty at that
    point, and a newline; [message.content] is only tested. *)
Definition extract_message_content (message : Message) : string :=
  let content := "" in
  let content :=
    if truthy (Discord.content message)
    then content +:+ (content +:+ newline) else content in
  let content :=
    match Discord.embeds message with
    | [] => content
    | _ :: _ =>
        content +:+ (extract_embed_content (Discord.embeds message) +:+ newline)
    end in
  strip content.

End Strip.

(** [sorted(items, key=lambda x: x[0])]: a stable sort, smaller keys
    first, strings compared character by character. *)
Fixpoint insert_by_key {A : Type} (x : string * A) (l : list (string * A))
    : list (string * A) :=
  match l with
  | [] => [x]
  | y :: l' =>
      if String.leb (fst x) (fst y) then x :: y :: l'
      else y :: insert_by_key x l'
  end.

Fixpoint sort_by_key {A : Type} (l : list (string * A)) : list (string * A) :=
  match l with
  | [] => []
  | x :: l' => insert_by_key x (sort_by_key l')
  end.

Section Pages.

Variable token : Type.
Variable encode : string → list token.

(** The field [add_field] is called with for the entry [em], the
    [num]-th of its page. *)
Definition entry_field (place num : Z) (em : string * Models.Embedding)
    : EmbedField :=
  let text := Models.text (snd em) in
  let token_length := Utils.num_tokens_from_string token encode text in
  let val :=
    "`Tokens: `" +:+ str_of_int token_length +:+ newline
    +:+ "```" +:+ newline +:+ substring 0 30 text +:+ "..." +:+ newline
    +:+ "```" in
  {| name := if place =? num then marker +:+ fst em else fst em;
     value := val;
     inline := false |}.

(** The loop [for i in range(start, stop)], over the remaining
    indices; [embeddings[i]] raises [IndexError] out of range. *)
Fixpoint page_loop (place : Z) (embeddings : list (string * Models.Embedding))
    (indices : list nat) (num : Z) (fields : list EmbedField)
    : result (list EmbedField) :=
  match indices with
  | [] => Ok fields
  | i :: indices' =>
      match embeddings !! i with
      | None => Raise IndexError
      | Some em =>
          page_loop place embeddings indices' (num + 1)
            (fields ++ [entry_field place num em])
      end
  end.

(** The loop [for page in range(pages)], over the pages that remain;
    [page] counts from zero. *)
Fixpoint pages_loop (place : Z) (embeddings : list (string * Models.Embedding))
    (pages : Z) (remaining : nat) (page : Z) (start stop : nat)
    (embeds : list Embed) : result (list Embed) :=
  match remaining with
  | O => Ok embeds
  | S remaining' =>
      let stop := Nat.min stop (length embeddings) in
      fields ← page_loop place embeddings (seq start (stop - start)) 0 [];
      let embed :=
        {| title := Some "Embeddings";
           description := None;
           colour := Some blue;
           footer := Some ("Page " +:+ str_of_int (page + 1) +:+ "/"
                           +:+ str_of_int pages);
           fields := fields |} in
      pages_loop place embeddings pages remaining' (page + 1)
        (start + 5) (stop + 5) (embeds ++ [embed])
  end.

(** Page [q] (from zero) in closed form: the five entries from index
    [5 * q] on, each with its number on the page. *)
Definition page_of (place : Z) (embeddings : list (string * Models.Embedding))
    (pages : Z) (q : nat) : Embed :=
  {| title := Some "Embeddings";
     description := None;
     colour := Some blue;
     footer := Some ("Page " +:+ str_of_int (Z.of_nat q + 1) +:+ "/"
                     +:+ str_of_int pages);
     fields := imap (λ j em, entry_field place (Z.of_nat j) em)
                 (take 5 (drop (5 * q) embeddings)) |}.

Definition no_embeddings : Embed :=
  {| title := None;
     description := Some "No embeddings have been added!";
     colour := Some purple;
     footer := None;
     fields := [] |}.

(** [embeddings] is the dict, as its items in insertion order;
    [math.ceil(len / 5)] is [(len + 4) / 5]. *)
Definition embedding_embeds (embeddings : list (string * Models.Embedding))
    (place : Z) : result (list Embed) :=
  let embeddings := sort_by_key embeddings in
  let pages := (Z.of_nat (length embeddings) + 4) / 5 in
  embeds ← pages_loop place embeddings pages (Z.to_nat pages) 0 0 5 [];
  match embeds with
  | [] => Ok [no_embeddings]
  | _ :: _ => Ok embeds
  end.

End Pages.

(** [str.isspace] on the characters below 128: tab to carriage
    return, the four separators and the space. *)
Definition isspace_ascii (a : ascii) : bool :=
  let n := nat_of_ascii a in
  ((9 <=? n)%nat && (n <=? 13)%nat) || ((28 <=? n)%nat && (n <=? 32)%nat).

End Formatting.

(** ** A tokenizer to run the definitions

    One token per character; [decode] inverts [encode]. *)

Module CharTokenizer.

Definition token : Type := ascii.
Definition encode (s : string) : list token := list_ascii_of_string s.
Definition decode (ts : list token) : string := string_of_list_ascii ts.

End CharTokenizer.

(** ** Concrete data to run the definitions *)

Module Scenario.

Import Models.

(** A stand-in for the similarity: the dot product. *)
Fixpoint dot (a b : list Q) : Q :=
  match a, b with
  | x :: a', y :: b' => (x * y + dot a' b')%Q
  | _, _ => 0%Q
  end.

(** Three stored texts whose similarities to the query [[1]] are 0.9,
    0.6 and 0.81; [top_n] is 2 and [min_relatedness] 0.75. *)
Definition related_settings : GuildSettings := {|
  system_prompt := ""; prompt := "";
  embeddings :=
    [("A", {| text := "A"; embedding := [(9 # 10)%Q] |});
     ("B", {| text := "B"; embedding := [(6 # 10)%Q] |});
     ("C", {| text := "C"; embedding := [(81 # 100)%Q] |})];
  top_n := 2; min_relatedness := (75 # 100)%Q; dynamic_embedding := true;
  channel_id := 0; api_key := ""; endswith_questionmark := false;
  max_retention := 0; max_retention_time := 1800; max_tokens := 4000;
  min_length := 7; mention := false; enabled := true; model := "gpt-3.5-turbo"
|}.

(** No prompt of its own, a budget of 10 tokens, at most 2 messages
    retained. *)
Definition tight_settings : GuildSettings := {|
  system_prompt := ""; prompt := ""; embeddings := []; top_n := 3;
  min_relatedness := (75 # 100)%Q; dynamic_embedding := true;
  channel_id := 0; api_key := ""; endswith_questionmark := false;
  max_retention := 2; max_retention_time := 1800; max_tokens := 10;
  min_length := 7; mention := false; enabled := true; model := "gpt-3.5-turbo"
|}.

Definition pangram : string := "the quick brown fox jumps over the lazy dog".

Definition three_turns : store :=
  [{| role := "user"; content := pangram |};
   {| role := "assistant"; content := pangram |};
   {| role := "user"; content := pangram |}].

Definition three_turn_conversation : Conversation :=
  {| messages := [0; 1; 2]%nat; last_updated := 0%Q |}.

Definition member_1_23 : Member := {| id := 1; guild_id := 23 |}.
Definition member_12_3 : Member := {| id := 12; guild_id := 3 |}.

Definition empty_registry : Conversations := {| conversations := ∅ |}.

(** Seven named texts, not in key order. *)
Definition seven_entries : list (string * Embedding) :=
  map (λ k, (k, {| text := k +:+ " text"; embedding := [] |}))
    ["k"; "b"; "a"; "z"; "c"; "d"; "e"].

Definition with_max_retention (z : Z) (c : GuildSettings) : GuildSettings :=
  {| system_prompt := system_prompt c; prompt := prompt c;
     embeddings := embeddings c; top_n := top_n c;
     min_relatedness := min_relatedness c;
     dynamic_embedding := dynamic_embedding c; channel_id := channel_id c;
     api_key := api_key c; endswith_questionmark := endswith_questionmark c;
     max_retention := z;
     max_retention_time := max_retention_time c; max_tokens := max_tokens c;
     min_length := min_length c; mention := mention c; enabled := enabled c;
     model := model c |}.

Definition with_top_n (z : Z) (c : GuildSettings) : GuildSettings :=
  {| system_prompt := system_prompt c; prompt := prompt c;
     embeddings := embeddings c; top_n := z;
     min_relatedness := min_relatedness c;
     dynamic_embedding := dynamic_embedding c; channel_id := channel_id c;
     api_key := api_key c; endswith_questionmark := endswith_questionmark c;
     max_retention := max_retention c;
     max_retention_time := max_retention_time c; max_tokens := max_tokens c;
     min_length := min_length c; mention := mention c; enabled := enabled c;
     model := model c |}.

End Scenario.

(** * Properties *)

(** ** token_pagify *)

Section TokenPagify.

Variable token : Type.
Variable encode : string → list token.
Variable decode : list token → string.

Local Abbreviation pagify_loop := (Utils.pagify_loop token).
Local Abbreviation token_chunks_of := (Utils.token_chunks_of token encode).
Local Abbreviation token_pagify := (Utils.token_pagify token encode decode).
Local Abbreviation num_tokens_from_string := (Utils.num_tokens_from_string token encode).

(** The loop loses no token and keeps their order. *)
Lemma pagify_loop_concat max_tokens tokens chunks cur chunks' cur' :
  pagify_loop max_tokens tokens chunks cur = (chunks', cur') →
  concat chunks' ++ cur' = concat chunks ++ cur ++ tokens.
Proof.
  revert chunks cur.
  induction tokens as [|tok rest IH]; intros chunks cur Hloop; simpl in Hloop.
  - injection Hloop as <- <-. by rewrite app_nil_r.
  - destruct (Z.of_nat (length (cur ++ [tok])) =? max_tokens).
    + apply IH in Hloop. rewrite Hloop, concat_app. simpl.
      by rewrite !app_nil_r, <- !app_assoc.
    + apply IH in Hloop. rewrite Hloop. by rewrite <- !app_assoc.
Qed.

(** Every closed chunk is full and the open one is not. *)
Lemma pagify_loop_full max_tokens tokens chunks cur chunks' cur' :
  1 ≤ max_tokens →
  pagify_loop max_tokens tokens chunks cur = (chunks', cur') →
  Forall (λ c, Z.of_nat (length c) = max_tokens) chunks →
  Z.of_nat (length cur) < max_tokens →
  Forall (λ c, Z.of_nat (length c) = max_tokens) chunks'
  ∧ Z.of_nat (length cur') < max_tokens.
Proof.
  intros Hmax. revert chunks cur.
  induction tokens as [|tok rest IH]; intros chunks cur Hloop Hall Hcur;
    simpl in Hloop.
  - by injection Hloop as <- <-.
  - destruct (Z.of_nat (length (cur ++ [tok])) =? max_tokens) eqn:Hfull.
    + apply Z.eqb_eq in Hfull. apply (IH _ _ Hloop).
      * apply Forall_app. split; [done|]. by constructor.
      * simpl. lia.
    + apply Z.eqb_neq in Hfull. apply (IH _ _ Hloop); [done|].
      rewrite length_app in *. simpl in *. lia.
Qed.

Lemma token_chunks_concat text max_tokens :
  concat (token_chunks_of text max_tokens) = encode text.
Proof.
  unfold Utils.token_chunks_of.
  destruct (pagify_loop max_tokens (encode text) [] []) as [chunks cur] eqn:Hloop.
  apply pagify_loop_concat in Hloop. simpl in Hloop.
  destruct cur as [|t cur].
  - by rewrite app_nil_r in Hloop.
  - by rewrite concat_app; simpl; rewrite app_nil_r.
Qed.

(** The chunks are a run of full chunks followed by at most one
    shorter, non-empty chunk. *)
Lemma token_chunks_shape text max_tokens :
  1 ≤ max_tokens →
  ∃ full last,
    token_chunks_of text max_tokens = full ++ last
    ∧ Forall (λ c, Z.of_nat (length c) = max_tokens) full
    ∧ (last = [] ∨ ∃ c, last = [c] ∧ 0 < Z.of_nat (length c) < max_tokens).
Proof.
  intros Hmax. unfold Utils.token_chunks_of.
  destruct (pagify_loop max_tokens (encode text) [] []) as [chunks cur] eqn:Hloop.
  apply pagify_loop_full in Hloop as [Hall Hcur]; [|done|constructor|simpl; lia].
  destruct cur as [|t cur].
  - exists chunks, []. rewrite app_nil_r. auto.
  - exists chunks, [t :: cur]. split_and!; [done|done|].
    right. eexists. split; [done|]. simpl in *. lia.
Qed.

Lemma token_chunks_bound text max_tokens :
  1 ≤ max_tokens →
  Forall (λ c, 0 < Z.of_nat (length c) ≤ max_tokens)
    (token_chunks_of text max_tokens).
Proof.
  intros Hmax.
  destruct (token_chunks_shape text max_tokens Hmax)
    as (full & last & -> & Hfull & Hlast).
  apply Forall_app. split.
  - eapply Forall_impl; [exact Hfull|]. simpl. intros c Hc. lia.
  - destruct Hlast as [->|(c & -> & Hc)]; [constructor|].
    constructor; [lia|constructor].
Qed.

(** When [encode] inverts [decode], a decoded chunk counts as many
    tokens as the chunk holds, or none if it decodes to the empty
    text. *)
Lemma num_tokens_decode (c : list token) :
  (∀ ts, encode (decode ts) = ts) →
  num_tokens_from_string (decode c) ≤ Z.of_nat (length c).
Proof.
  intros Hround. unfold Utils.num_tokens_from_string.
  destruct (truthy (decode c)); [rewrite Hround|]; lia.
Qed.

(** C9. For [max_tokens ≥ 1], [token_pagify] decodes a list of token
    chunks which, concatenated, is [encode text]; every chunk holds
    between 1 and [max_tokens] tokens and every chunk but the last
    holds exactly [max_tokens].  For a tokenizer whose [encode]
    inverts [decode], each text chunk counts at most [max_tokens]
    tokens and the encodings of the text chunks, concatenated, are
    [encode text]. *)
Theorem token_pagify_chunks text max_tokens :
  1 ≤ max_tokens →
  let chunks := token_chunks_of text max_tokens in
  token_pagify text max_tokens = map decode chunks
  ∧ concat chunks = encode text
  ∧ Forall (λ c, 0 < Z.of_nat (length c) ≤ max_tokens) chunks
  ∧ (∀ i c, chunks !! i = Some c → (S i < length chunks)%nat →
       Z.of_nat (length c) = max_tokens)
  ∧ ((∀ ts, encode (decode ts) = ts) →
       Forall (λ s, num_tokens_from_string s ≤ max_tokens)
         (token_pagify text max_tokens)
       ∧ concat (map encode (token_pagify text max_tokens)) = encode text).
Proof.
  intros Hmax chunks.
  pose proof (token_chunks_bound text max_tokens Hmax) as Hbound.
  split_and!.
  - done.
  - apply token_chunks_concat.
  - done.
  - intros i c Hi Hlt. subst chunks.
    destruct (token_chunks_shape text max_tokens Hmax)
      as (full & last & Heq & Hfull & Hlast).
    rewrite Heq in Hi, Hlt.
    assert (i < length full)%nat as Hin.
    { rewrite length_app in Hlt.
      destruct Hlast as [->|(c' & -> & _)]; simpl in Hlt; lia. }
    rewrite lookup_app_l in Hi by done.
    by eapply Forall_lookup_1 in Hfull.
  - intros Hround. split.
    + unfold Utils.token_pagify. apply Forall_map.
      eapply Forall_impl; [exact Hbound|]. simpl. intros c Hc.
      pose proof (num_tokens_decode c Hround). lia.
    + unfold Utils.token_pagify.
      rewrite <- (token_chunks_concat text max_tokens). fold chunks.
      clear -Hround. induction chunks as [|c l IH]; [done|].
      simpl. by rewrite Hround, IH.
Qed.

End TokenPagify.

(** ** get_embedding_async *)

Section EmbeddingRetrieval.

Variable get_embedding : nat → string → result (list Q).

Local Abbreviation embedding_loop := (Utils.embedding_loop get_embedding).
Local Abbreviation get_embedding_async := (Utils.get_embedding_async get_embedding).

(** The loop stops at the first call that returns, with its vector, or
    after [remaining] failed calls, with the empty vector. *)
Lemma embedding_loop_outcome remaining calls text :
  (∃ k v, (k < remaining)%nat
     ∧ (∀ i, (i < k)%nat → ∃ e, get_embedding (calls + i)%nat text = Raise e)
     ∧ get_embedding (calls + k)%nat text = Ok v
     ∧ embedding_loop remaining calls text = (Ok v, S (calls + k)))
  ∨ ((∀ i, (i < remaining)%nat → ∃ e, get_embedding (calls + i)%nat text = Raise e)
     ∧ embedding_loop remaining calls text = (Ok [], (calls + remaining)%nat)).
Proof.
  revert calls. induction remaining as [|n IH]; intros calls; simpl.
  - right. split; [lia|]. by rewrite Nat.add_0_r.
  - destruct (get_embedding calls text) as [v|e] eqn:Hcall.
    + left. exists 0%nat, v. rewrite Nat.add_0_r. split_and!; [lia|lia|done|done].
    + destruct (IH (S calls)) as [(k & v & Hk & Hfail & Hok & Hloop)|[Hfail Hloop]].
      * left. exists (S k), v. split_and!.
        -- lia.
        -- intros [|i] Hi; [rewrite Nat.add_0_r; eauto|].
           replace (calls + S i)%nat with (S calls + i)%nat by lia.
           apply Hfail. lia.
        -- by replace (calls + S k)%nat with (S calls + k)%nat by lia.
        -- rewrite Hloop. f_equal. lia.
      * right. split.
        -- intros [|i] Hi; [rewrite Nat.add_0_r; eauto|].
           replace (calls + S i)%nat with (S calls + i)%nat by lia.
           apply Hfail. lia.
        -- rewrite Hloop. f_equal. lia.
Qed.

(** C7. Whatever the provider does, [get_embedding_async] returns a
    vector and never raises; it calls the provider at most three times;
    it returns the vector of the first call that succeeds among the
    first three, and the empty vector when all three fail. *)
Theorem get_embedding_async_absorbs_failures text :
  ∃ v calls,
    get_embedding_async text = (Ok v, calls)
    ∧ (calls ≤ 3)%nat
    ∧ ((∃ k, calls = S k
          ∧ get_embedding k text = Ok v
          ∧ ∀ i, (i < k)%nat → ∃ e, get_embedding i text = Raise e)
       ∨ (calls = 3%nat ∧ v = []
          ∧ ∀ i, (i < 3)%nat → ∃ e, get_embedding i text = Raise e)).
Proof.
  unfold Utils.get_embedding_async.
  destruct (embedding_loop_outcome 3 0 text)
    as [(k & v & Hk & Hfail & Hok & Hloop)|[Hfail Hloop]].
  - exists v, (S k). simpl in *. split_and!; [done|lia|].
    left. exists k. split_and!; done.
  - exists [], 3%nat. split_and!; [done|lia|].
    right. split_and!; done.
Qed.

End EmbeddingRetrieval.

(** ** GuildSettings *)

Section Construction.

Import Models.

Lemma kwarg_other name v data other :
  String.eqb name other = false →
  kwarg other ((name, v) :: data) = kwarg other data.
Proof. intros H. simpl. by rewrite H. Qed.

Lemma result_bind_Ok {A B : Type} (m : result A) (k : A → result B) (b : B) :
  m ≫= k = Ok b → ∃ a, m = Ok a ∧ k a = Ok b.
Proof. destruct m as [a|e]; [eauto|discriminate]. Qed.

(** C8 fails on the code: a negative [max_tokens] is accepted. *)
Lemma GuildSettings_init_accepts_negative_max_tokens :
  GuildSettings_init [("max_tokens", VInt (-1))]
  = Ok (with_max_tokens (-1) GuildSettings_default).
Proof. reflexivity. Qed.

(** C8, amended. Construction does not look at the sign of
    [max_tokens]: added to arguments that construct a policy, any
    integer [max_tokens] constructs the same policy with that value. *)
Theorem GuildSettings_init_any_max_tokens data conf z :
  GuildSettings_init data = Ok conf →
  GuildSettings_init (("max_tokens", VInt z) :: data) = Ok (with_max_tokens z conf).
Proof.
  unfold GuildSettings_init, field_str, field_int, field_float, field_bool,
    field_embeddings.
  change (kwarg "max_tokens" (("max_tokens", VInt z) :: data)) with (Some (VInt z)).
  rewrite !kwarg_other by reflexivity.
  intros H.
  repeat (apply result_bind_Ok in H as (? & Hf & H); try rewrite Hf; clear Hf).
  by injection H as <-.
Qed.

Lemma GuildSettings_init_any_max_tokens_witness :
  GuildSettings_init [("max_tokens", VInt (-4000))]
  = Ok (with_max_tokens (-4000) GuildSettings_default).
Proof.
  apply (GuildSettings_init_any_max_tokens [] GuildSettings_default (-4000)).
  reflexivity.
Defined.

End Construction.

(** ** Conversation: retention *)

Section Retention.

Import Models.

Lemma is_expired_iff now self conf :
  is_expired now self conf = true
  ↔ max_retention_time conf ≠ 0
    ∧ (inject_Z (max_retention_time conf) < now - last_updated self)%Q.
Proof.
  unfold is_expired.
  destruct (max_retention_time conf =? 0) eqn:Hzero.
  - apply Z.eqb_eq in Hzero. split; [discriminate|]. intros [Hne _]. done.
  - apply Z.eqb_neq in Hzero. rewrite negb_true_iff.
    split.
    + intros Hle. split; [done|]. apply Qnot_le_lt. intros Hc.
      apply Qle_bool_iff in Hc. congruence.
    + intros [_ Hlt]. apply not_true_is_false. intros Hc.
      apply Qle_bool_iff in Hc. by apply Qlt_not_le in Hlt.
Qed.

(** [l[-n:]] for a positive [n] keeps the last [n] entries, or all of
    them when there are fewer. *)
Lemma slice_from_last {A : Type} (l : list A) (n : Z) :
  0 < n →
  slice_from l (- n) = drop (length l - Z.to_nat n) l.
Proof.
  intros Hn. unfold slice_from.
  destruct (- n <? 0) eqn:Hneg; [|apply Z.ltb_ge in Hneg; lia].
  f_equal. lia.
Qed.

(** C5. With [max_retention ≥ 0]: a conversation is expired exactly
    when [max_retention_time] is not zero and the time since
    [last_updated] exceeds it; [cleanup] leaves no message when the
    conversation is expired or [max_retention] is zero; otherwise it
    leaves the last [max_retention] messages (all of them when there are
    fewer), so that it empties the list only if the list was empty. *)
Theorem cleanup_retention now self conf :
  0 ≤ max_retention conf →
  let after := messages (cleanup now self conf) in
  (is_expired now self conf = true
   ↔ max_retention_time conf ≠ 0
     ∧ (inject_Z (max_retention_time conf) < now - last_updated self)%Q)
  ∧ (is_expired now self conf = true ∨ max_retention conf = 0 → after = [])
  ∧ (is_expired now self conf = false → max_retention conf ≠ 0 →
       after = drop (length (messages self) - Z.to_nat (max_retention conf))
                    (messages self)
       ∧ length after
         = Nat.min (Z.to_nat (max_retention conf)) (length (messages self))
       ∧ (after = [] → messages self = [])).
Proof.
  intros Hpos after. split; [apply is_expired_iff|]. subst after.
  unfold cleanup. split.
  - intros [->| ->]; [done|]. by rewrite orb_true_r.
  - intros -> Hne. apply Z.eqb_neq in Hne as Hne'. rewrite Hne'. simpl.
    rewrite slice_from_last by lia.
    assert (Hlen : length (drop (length (messages self)
                                 - Z.to_nat (max_retention conf)) (messages self))
                   = Nat.min (Z.to_nat (max_retention conf)) (length (messages self))).
    { rewrite length_drop. lia. }
    split_and!; [done|done|].
    intros Hnil. rewrite Hnil in Hlen. simpl in Hlen.
    destruct (messages self); [done|]. simpl in Hlen. lia.
Qed.

(** The scenario of the specification: five messages, [max_retention]
    of two, not expired. *)
Lemma cleanup_retention_witness :
  messages
    (cleanup 100%Q {| messages := [0; 1; 2; 3; 4]%nat; last_updated := 90%Q |}
       Scenario.tight_settings)
  = [3; 4]%nat.
Proof.
  refine (proj1 (proj2 (proj2 (cleanup_retention 100%Q _ _ _)) _ _)).
  - simpl. lia.
  - reflexivity.
  - simpl. lia.
Defined.

(** C6. [reset] empties the message list and sets [last_updated] to the
    current time; [cleanup] of an expired conversation empties the
    message list and leaves [last_updated] as it was. *)
Theorem reset_and_expired_cleanup now self conf :
  is_expired now self conf = true →
  messages (reset now self) = []
  ∧ last_updated (reset now self) = now
  ∧ messages (cleanup now self conf) = []
  ∧ last_updated (cleanup now self conf) = last_updated self.
Proof.
  intros Hexp. unfold reset, cleanup. rewrite Hexp. simpl. done.
Qed.

(** The scenario of the specification: [max_retention_time] of 1800,
    last update 3600 seconds ago. *)
Lemma reset_and_expired_cleanup_witness :
  let self := {| messages := [0; 1; 2]%nat; last_updated := 1000%Q |} in
  messages (reset 4600%Q self) = []
  ∧ last_updated (reset 4600%Q self) = 4600%Q
  ∧ messages (cleanup 4600%Q self GuildSettings_default) = []
  ∧ last_updated (cleanup 4600%Q self GuildSettings_default) = 1000%Q.
Proof.
  apply (reset_and_expired_cleanup 4600%Q
           {| messages := [0; 1; 2]%nat; last_updated := 1000%Q |}
           GuildSettings_default).
  reflexivity.
Defined.

(** Allocation does not change what existing references show. *)
Lemma view_alloc (h ext : store) (refs : list nat) :
  Forall (λ l, l < length h)%nat refs →
  view (h ++ ext) refs = view h refs.
Proof.
  unfold view. induction 1 as [|l ls Hl _ IH]; [done|]. cbn.
  rewrite lookup_app_l by done. by rewrite <- IH.
Qed.

Lemma view_app (h : store) (refs1 refs2 : list nat) :
  view h (refs1 ++ refs2) = view h refs1 ++ view h refs2.
Proof. apply omap_app. Qed.

(** C10. [update_messages] checks neither argument: for every role and
    content it allocates one dict [{role, content}], appends the
    reference to it at the end of the message list, sets [last_updated]
    to the current time, and leaves every dict already in the store as
    it was. *)
Theorem update_messages_appends now h self message role :
  ∃ h' self',
    update_messages now h self message role = (h', self')
    ∧ h' = h ++ [{| role := role; content := message |}]
    ∧ messages self' = messages self ++ [length h]
    ∧ h' !! length h = Some {| role := role; content := message |}
    ∧ last_updated self' = now
    ∧ (∀ l m, h !! l = Some m → h' !! l = Some m)
    ∧ (Forall (λ l, l < length h)%nat (messages self) →
         view h' (messages self')
         = view h (messages self) ++ [{| role := role; content := message |}]).
Proof.
  eexists _, _. split; [reflexivity|]. simpl. split_and!; try done.
  - by rewrite list_lookup_middle.
  - intros l m Hl. by apply lookup_app_l_Some.
  - intros Hwf. rewrite view_app, view_alloc by done.
    unfold view. simpl. by rewrite list_lookup_middle.
Qed.

End Retention.

(** ** The stable descending sort *)

Section SortDesc.

Context {A : Type}.

Implicit Types (x y e : A * Q) (l : list (A * Q)) (v : Q).

Lemma insert_desc_perm x l : insert_desc x l ≡ₚ x :: l.
Proof.
  induction l as [|y l IH]; simpl; [done|].
  destruct (Qle_bool (snd y) (snd x)); [done|].
  rewrite IH. apply Permutation_swap.
Qed.

Lemma sort_desc_perm l : sort_desc l ≡ₚ l.
Proof.
  induction l as [|x l IH]; simpl; [done|].
  by rewrite insert_desc_perm, IH.
Qed.

Lemma insert_desc_sorted x l :
  StronglySorted desc l → StronglySorted desc (insert_desc x l).
Proof.
  induction 1 as [|y l Hsorted IH Hy]; simpl.
  - repeat constructor.
  - destruct (Qle_bool (snd y) (snd x)) eqn:Hle.
    + apply Qle_bool_iff in Hle.
      constructor; [by constructor|]. constructor; [done|].
      eapply Forall_impl; [exact Hy|]. unfold desc. simpl. intros z Hz.
      by apply Qle_trans with (snd y).
    + constructor; [done|]. rewrite insert_desc_perm. constructor; [|done].
      unfold desc. apply Qlt_le_weak, Qnot_le_lt. intros Hc.
      apply Qle_bool_iff in Hc. congruence.
Qed.

Lemma sort_desc_sorted l : StronglySorted desc (sort_desc l).
Proof.
  induction l as [|x l IH]; simpl; [constructor|]. by apply insert_desc_sorted.
Qed.

(** Insertion passes only entries with a strictly larger score, so it
    leaves the order of the entries tied with any [v] as it is. *)
Lemma insert_desc_tied v x l :
  filter (tied v) (insert_desc x l) = filter (tied v) (x :: l).
Proof.
  induction l as [|y l IH]; simpl; [done|].
  destruct (Qle_bool (snd y) (snd x)) eqn:Hle; [done|].
  rewrite (filter_cons _ y), IH, !filter_cons.
  destruct (decide (tied v y)) as [Hy|Hy], (decide (tied v x)) as [Hx|Hx];
    try done.
  unfold tied in Hx, Hy. apply Qeq_bool_iff in Hx, Hy.
  assert (Qle_bool (snd y) (snd x) = true); [|congruence].
  apply Qle_bool_iff. rewrite Hx, Hy. apply Qle_refl.
Qed.

Lemma sort_desc_stable v l :
  filter (tied v) (sort_desc l) = filter (tied v) l.
Proof.
  induction l as [|x l IH]; simpl; [done|].
  by rewrite insert_desc_tied, !filter_cons, IH.
Qed.

Lemma filter_take_prefix (P : A * Q → Prop) `{!∀ e, Decision (P e)} n l :
  filter P (take n l) `prefix_of` filter P l.
Proof.
  rewrite <- (take_drop n l) at 2. rewrite filter_app. by apply prefix_app_r.
Qed.

Lemma sorted_take n l :
  StronglySorted desc l → StronglySorted desc (take n l).
Proof.
  rewrite <- (take_drop n l) at 1. apply StronglySorted_app_1_l.
Qed.

(** Among the entries that pass a threshold, those tied with [v] are
    all the entries tied with [v], or none. *)
Lemma filter_tied_threshold v (m : Q) l :
  filter (tied v) (filter (λ e, Qle_bool m (snd e) = true) l)
    `prefix_of` filter (tied v) l.
Proof.
  induction l as [|x l IH]; [done|].
  rewrite (filter_cons (λ e, Qle_bool m (snd e) = true)).
  destruct (decide (Qle_bool m (snd x) = true)) as [Hm|Hm].
  - rewrite !filter_cons. destruct (decide (tied v x)); [by apply prefix_cons|done].
  - rewrite (filter_cons (tied v) x).
    destruct (decide (tied v x)) as [Hx|Hx]; [|done].
    (* [x] is tied with [v] and below the threshold: so is every entry
       tied with [v], and none passes. *)
    assert (filter (tied v) (filter (λ e, Qle_bool m (snd e) = true) l) = [])
      as ->; [|apply prefix_nil].
    clear IH. induction l as [|y l IH]; [done|].
    rewrite (filter_cons (λ e, Qle_bool m (snd e) = true)).
    destruct (decide (Qle_bool m (snd y) = true)) as [Hy|Hy]; [|done].
    rewrite filter_cons. destruct (decide (tied v y)) as [Hty|Hty]; [|done].
    exfalso. apply Hm. unfold tied in Hx, Hty.
    apply Qeq_bool_iff in Hx, Hty. apply Qle_bool_iff in Hy.
    apply Qle_bool_iff. by rewrite Hx, <- Hty.
Qed.

End SortDesc.

(** ** GuildSettings.get_related_embeddings *)

Section Related.

Import Models.

Variable cosine_similarity : list Q → list Q → Q.

Local Abbreviation strings_and_relatedness :=
  (Models.strings_and_relatedness cosine_similarity).
Local Abbreviation get_related_embeddings :=
  (Models.get_related_embeddings cosine_similarity).

Lemma slice_to_take {A : Type} (l : list A) (n : Z) :
  0 ≤ n → slice_to l n = take (Z.to_nat n) l.
Proof.
  intros Hn. unfold slice_to.
  destruct (0 <=? n) eqn:Hle; [done|]. apply Z.leb_gt in Hle. lia.
Qed.

(** C4. With [top_n ≥ 0]: the result has at most [top_n] entries; each
    is a stored text with its similarity to the query, and this
    similarity is not below [min_relatedness]; the similarities do not
    increase along the result; the entries of the result that have the
    same similarity stand in storage order (they are the first of the
    stored entries with that similarity); and the result is empty when
    [top_n] is zero, the store is empty or the query is empty. *)
Theorem get_related_embeddings_ranked self query_embedding :
  0 ≤ top_n self →
  let res := get_related_embeddings self query_embedding in
  Z.of_nat (length res) ≤ top_n self
  ∧ (∀ e, e ∈ res →
       e ∈ strings_and_relatedness self query_embedding
       ∧ (min_relatedness self <= snd e)%Q)
  ∧ StronglySorted desc res
  ∧ (∀ v, filter (tied v) res
            `prefix_of` filter (tied v) (strings_and_relatedness self query_embedding))
  ∧ (top_n self = 0 ∨ embeddings self = [] ∨ query_embedding = [] → res = []).
Proof.
  intros Hn res. subst res. unfold Models.get_related_embeddings.
  destruct ((top_n self =? 0) || bool_decide (query_embedding = [])
            || bool_decide (embeddings self = [])) eqn:Hearly.
  { split_and!.
    - simpl. lia.
    - intros e He. by apply not_elem_of_nil in He.
    - constructor.
    - intros v. apply prefix_nil.
    - done. }
  apply orb_false_iff in Hearly as [Hearly Hstore].
  apply orb_false_iff in Hearly as [Htop Hquery].
  apply Z.eqb_neq in Htop.
  apply bool_decide_eq_false in Hquery, Hstore.
  cbv zeta. rewrite slice_to_take by done.
  set (scored := strings_and_relatedness self query_embedding).
  set (kept := filter (λ i, Qle_bool (min_relatedness self) (snd i) = true) scored).
  split_and!.
  - rewrite length_take. lia.
  - intros e He.
    assert (e ∈ kept) as Hkept.
    { rewrite <- (sort_desc_perm kept).
      apply elem_of_take in He as (i & Hi & _).
      by apply list_elem_of_lookup_2 in Hi. }
    apply list_elem_of_filter in Hkept as [Hmin Hin].
    split; [done|]. by apply Qle_bool_iff.
  - apply sorted_take, sort_desc_sorted.
  - intros v. etransitivity; [apply filter_take_prefix|].
    rewrite sort_desc_stable. apply filter_tied_threshold.
  - intros [?|[?|?]]; done.
Qed.

End Related.

Section RelatedScenario.

Import Models Scenario.

(** The scenario of the specification: similarities 0.9, 0.6 and 0.81,
    a threshold of 0.75 and [top_n] of 2 give A, then C. *)
Lemma get_related_embeddings_scenario :
  map fst (get_related_embeddings dot related_settings [1%Q]) = ["A"; "C"].
Proof. reflexivity. Qed.

Lemma get_related_embeddings_ranked_witness :
  let res := get_related_embeddings dot related_settings [1%Q] in
  Z.of_nat (length res) ≤ 2
  ∧ (∀ e, e ∈ res →
       e ∈ strings_and_relatedness dot related_settings [1%Q]
       ∧ (75 # 100 <= snd e)%Q)
  ∧ StronglySorted desc res
  ∧ (∀ v, filter (tied v) res
            `prefix_of` filter (tied v)
                          (strings_and_relatedness dot related_settings [1%Q]))
  ∧ (top_n related_settings = 0 ∨ embeddings related_settings = []
     ∨ [1%Q] = [] → res = []).
Proof.
  apply (get_related_embeddings_ranked dot related_settings [1%Q]).
  simpl. lia.
Defined.

End RelatedScenario.

(** ** token_pagify on the character tokenizer *)

Section CharTokenizerFacts.

Import CharTokenizer.

Lemma encode_decode ts : encode (decode ts) = ts.
Proof. apply list_ascii_of_string_of_list_ascii. Qed.

Lemma token_pagify_chunks_witness :
  let chunks := Utils.token_chunks_of token encode "abcdefgh" 3 in
  Utils.token_pagify token encode decode "abcdefgh" 3 = map decode chunks
  ∧ concat chunks = encode "abcdefgh"
  ∧ Forall (λ c, 0 < Z.of_nat (length c) ≤ 3) chunks
  ∧ (∀ i c, chunks !! i = Some c → (S i < length chunks)%nat →
       Z.of_nat (length c) = 3)
  ∧ ((∀ ts, encode (decode ts) = ts) →
       Forall (λ s, Utils.num_tokens_from_string token encode s ≤ 3)
         (Utils.token_pagify token encode decode "abcdefgh" 3)
       ∧ concat (map encode (Utils.token_pagify token encode decode "abcdefgh" 3))
         = encode "abcdefgh").
Proof.
  apply (token_pagify_chunks token encode decode "abcdefgh" 3). lia.
Defined.

(** The text chunks of the example. *)
Lemma token_pagify_example :
  Utils.token_pagify token encode decode "abcdefgh" 3 = ["abc"; "def"; "gh"].
Proof. reflexivity. Qed.

End CharTokenizerFacts.

(** ** Conversations.get_conversation *)

Section Registry.

Import Models.

(** Two members with the same key get the same [Conversation] object:
    the second call finds the entry of the first and changes nothing. *)
Lemma get_conversation_same_key self objs m1 m2 :
  conversation_key m1 = conversation_key m2 →
  ∀ c self' objs',
    get_conversation self objs m1 = (c, self', objs') →
    get_conversation self' objs' m2 = (c, self', objs').
Proof.
  intros Hkey c self' objs'. unfold get_conversation. rewrite <- Hkey.
  destruct (conversations self !! conversation_key m1) as [c0|] eqn:Hlook.
  - intros [= <- <- <-]. by rewrite Hlook.
  - intros [= <- <- <-]. simpl. by rewrite lookup_insert_eq.
Qed.

(** A write through the first handle is read through the second: the
    object store is not touched by the second call. *)
Lemma get_conversation_shares_writes self objs m c self' objs' conv :
  get_conversation self objs m = (c, self', objs') →
  get_conversation self' (<[c := conv]> objs') m = (c, self', <[c := conv]> objs')
  ∧ (c < length objs' → <[c := conv]> objs' !! c = Some conv)%nat.
Proof.
  intros Hget. split.
  - unfold get_conversation in *.
    destruct (conversations self !! conversation_key m) as [c0|] eqn:Hlook.
    + injection Hget as <- <- <-. by rewrite Hlook.
    + injection Hget as <- <- <-. simpl. by rewrite lookup_insert_eq.
  - intros Hc. by apply list_lookup_insert_eq.
Qed.

(** The key is the two decimal numbers written one after the other:
    it does not tell where the first ends. *)
Lemma conversation_key_collision :
  conversation_key Scenario.member_1_23 = conversation_key Scenario.member_12_3.
Proof. reflexivity. Qed.

(** Ids of the size the host gives out collide the same way: a
    17-digit member id in a 19-digit guild and an 18-digit member id in
    an 18-digit guild. *)
Lemma conversation_key_collision_long_ids :
  conversation_key {| id := 12345678901234567; guild_id := 8912345678901234567 |}
  = conversation_key {| id := 123456789012345678; guild_id := 912345678901234567 |}.
Proof. reflexivity. Qed.

(** C3 at the members (1, 23) and (12, 3): the two pairs differ, and
    the second gets the [Conversation] object created for the first; no
    second object is created. *)
Theorem get_conversation_distinct_members_share :
  Scenario.member_1_23 ≠ Scenario.member_12_3
  ∧ ∃ c self' objs',
      get_conversation Scenario.empty_registry [] Scenario.member_1_23
      = (c, self', objs')
      ∧ get_conversation self' objs' Scenario.member_12_3 = (c, self', objs')
      ∧ length objs' = 1%nat.
Proof.
  split; [discriminate|].
  eexists _, _, _. split; [reflexivity|]. split; [|reflexivity].
  apply (get_conversation_same_key Scenario.empty_registry []
           Scenario.member_1_23 Scenario.member_12_3 conversation_key_collision).
  reflexivity.
Qed.

End Registry.

(** ** Conversation.prepare_chat *)

Section PrepareChat.

Import Models.

Variable token : Type.
Variable encode : string → list token.
Variable decode : list token → string.

Local Abbreviation num_tokens_from_string := (Utils.num_tokens_from_string token encode).
Local Abbreviation conversation_token_count := (Models.conversation_token_count token encode).
Local Abbreviation drop_oldest := (Models.drop_oldest token encode).
Local Abbreviation prepare_chat := (Models.prepare_chat token encode decode).

Lemma append_prompt_grows h prepared r p h' prepared' :
  append_prompt h prepared r p = (h', prepared') →
  ∃ new, prepared' = prepared ++ new ∧ (length new ≤ 1)%nat.
Proof.
  unfold append_prompt. destruct (truthy p); intros [= <- <-].
  - exists [length h]. split; [done|simpl; lia].
  - exists []. rewrite app_nil_r. split; [done|simpl; lia].
Qed.

Lemma drop_oldest_cons h conf last_upd m m' rest :
  drop_oldest h conf last_upd (m :: m' :: rest)
  = if over_budget
         (conversation_token_count h
            {| messages := m :: m' :: rest; last_updated := last_upd |} conf)
         (max_tokens conf)
    then drop_oldest h conf last_upd (m' :: rest)
    else m :: m' :: rest.
Proof. reflexivity. Qed.

(** The loop drops messages from the old end only. *)
Lemma drop_oldest_suffix h conf last_upd msgs :
  drop_oldest h conf last_upd msgs `suffix_of` msgs.
Proof.
  induction msgs as [|m msgs IH]; [done|].
  destruct msgs as [|m' rest]; [done|].
  rewrite drop_oldest_cons. destruct (over_budget _ _); [|done].
  by apply suffix_cons_r.
Qed.

(** The loop stops within the budget or at the last message; it never
    empties a list that holds a message. *)
Lemma drop_oldest_stops h conf last_upd msgs :
  let msgs' := drop_oldest h conf last_upd msgs in
  (over_budget
     (conversation_token_count h
        {| messages := msgs'; last_updated := last_upd |} conf)
     (max_tokens conf) = false
   ∨ length msgs' = 1%nat ∨ msgs = [])
  ∧ (msgs' = [] → msgs = []).
Proof.
  induction msgs as [|m msgs IH]; [simpl; auto|].
  destruct msgs as [|m' rest]; [simpl; split; [auto|done]|].
  cbv zeta in *. rewrite drop_oldest_cons.
  destruct (over_budget
              (conversation_token_count h
                 {| messages := m :: m' :: rest; last_updated := last_upd |} conf)
              (max_tokens conf)) eqn:Hover.
  - destruct IH as [Hstop Hne]. split.
    + destruct Hstop as [?|[?|?]]; [by left|by right; left|done].
    + intros Hnil. by apply Hne in Hnil.
  - split; [by left|done].
Qed.

(** What [prepare_chat] returns, when it returns, ends with the whole
    history as it stood at the call: the loop shortens [self.messages]
    after [prepared] was filled. *)
Lemma prepare_chat_returns_history h self conf system_prompt initial_prompt
    prepared h' self' :
  prepare_chat h self conf system_prompt initial_prompt = Ok (prepared, h', self') →
  (∃ prompts, prepared = prompts ++ messages self ∧ (length prompts ≤ 2)%nat)
  ∧ messages self' `suffix_of` messages self.
Proof.
  unfold Models.prepare_chat.
  destruct (append_prompt h [] "system" system_prompt) as [h1 p1] eqn:H1.
  destruct (append_prompt h1 p1 "user" initial_prompt) as [h2 p2] eqn:H2.
  apply append_prompt_grows in H1 as (n1 & -> & Hn1).
  apply append_prompt_grows in H2 as (n2 & -> & Hn2).
  assert (Hprompts : (length ([] ++ n1 ++ n2) ≤ 2)%nat).
  { simpl. rewrite length_app. lia. }
  destruct (over_budget _ _).
  - intros H. apply result_bind_Ok in H as (m0 & _ & H).
    apply result_bind_Ok in H as (c0 & _ & H).
    injection H as <- <- <-. simpl. split; [|apply drop_oldest_suffix].
    exists ([] ++ n1 ++ n2). split; [|done]. by rewrite <- !app_assoc.
  - intros [= <- <- <-]. simpl. split; [|apply drop_oldest_suffix].
    exists ([] ++ n1 ++ n2). split; [|done]. by rewrite <- !app_assoc.
Qed.

Lemma append_prompt_store h prepared r p h' prepared' :
  append_prompt h prepared r p = (h', prepared') → ∃ ext, h' = h ++ ext.
Proof.
  unfold append_prompt. destruct (truthy p); intros [= <- <-]; [by eexists|].
  exists []. by rewrite app_nil_r.
Qed.

Lemma py_round_pos m : 1 ≤ m → 1 ≤ py_round (9 * m) 10.
Proof.
  intros Hm. unfold py_round.
  destruct (2 * ((9 * m) `mod` 10) <? 10) eqn:H1;
    [apply Z.ltb_lt in H1|apply Z.ltb_ge in H1].
  - Z.div_mod_to_equations. lia.
  - assert (0 ≤ (9 * m) `div` 10) by (Z.div_mod_to_equations; lia).
    destruct (10 <? 2 * ((9 * m) `mod` 10)) eqn:H2; [lia|].
    apply Z.ltb_ge in H2.
    destruct (Z.even ((9 * m) `div` 10)); [|lia].
    Z.div_mod_to_equations. lia.
Qed.

Lemma append_empty_r (s : string) : s +:+ "" = s.
Proof.
  induction s as [|a s IH]; [done|].
  change (String a (s +:+ "") = String a s). by rewrite IH.
Qed.

Lemma content_at_set_content (h : store) l s :
  (l < length h)%nat → content_at (set_content h l s) l = s.
Proof.
  intros Hl. unfold content_at, set_content.
  destruct (h !! l) as [m|] eqn:Hm.
  - by rewrite list_lookup_insert_eq.
  - apply lookup_ge_None in Hm. lia.
Qed.

(** What the two steps do achieve, on the stored history: for a
    tokenizer whose [encode] inverts [decode] and a budget of at least
    one token, after a call that returns the stored history is within
    the budget, or it is one message of at most [round(0.9 *
    max_tokens)] tokens. *)
Lemma prepare_chat_stored_budget h self conf system_prompt initial_prompt
    prepared h' self' :
  (∀ ts, encode (decode ts) = ts) →
  1 ≤ max_tokens conf →
  Forall (λ l, l < length h)%nat (messages self) →
  prepare_chat h self conf system_prompt initial_prompt = Ok (prepared, h', self') →
  over_budget (conversation_token_count h' self' conf) (max_tokens conf) = false
  ∨ ∃ m0, messages self' = [m0]
      ∧ Models.user_token_count token encode h' self'
        ≤ py_round (9 * max_tokens conf) 10.
Proof.
  intros Hround Hmax Hwf. unfold Models.prepare_chat.
  destruct (append_prompt h [] "system" system_prompt) as [h1 p1] eqn:H1.
  destruct (append_prompt h1 p1 "user" initial_prompt) as [h2 p2] eqn:H2.
  apply append_prompt_store in H1 as [ext1 ->].
  apply append_prompt_store in H2 as [ext2 ->].
  set (h2 := (h ++ ext1) ++ ext2).
  set (msgs' := drop_oldest h2 conf (last_updated self) (messages self)).
  destruct (over_budget _ _) eqn:Hover; [|intros [= <- <- <-]; by left].
  intros H. apply result_bind_Ok in H as (m0 & Hm0 & H).
  apply result_bind_Ok in H as (c0 & Hc0 & H).
  injection H as <- <- <-. right. exists m0.
  destruct (drop_oldest_stops h2 conf (last_updated self) (messages self))
    as [Hstop _]. fold msgs' in Hstop.
  assert (Hone : msgs' = [m0]).
  { destruct Hstop as [Hstop|[Hlen|Hnil]].
    - simpl in Hover. congruence.
    - simpl in Hm0. destruct msgs' as [|m [|]]; simpl in *; try done.
      by injection Hm0 as ->.
    - subst msgs'. rewrite Hnil in Hm0. discriminate. }
  simpl in Hm0 |- *. split; [done|].
  assert (Hm0wf : (m0 < length h2)%nat).
  { assert (m0 ∈ messages self) as Hin.
    { assert (msgs' `suffix_of` messages self) as [k Hk]
        by apply drop_oldest_suffix.
      rewrite Hk, Hone. apply elem_of_app. right. constructor. }
    rewrite Forall_forall in Hwf. apply Hwf in Hin.
    subst h2. rewrite !length_app. lia. }
  unfold Models.user_token_count. simpl. rewrite Hone. simpl.
  rewrite content_at_set_content, append_empty_r by done.
  unfold Utils.token_pagify in Hc0.
  pose proof (token_chunks_bound token encode (content_at h2 m0)
                (py_round (9 * max_tokens conf) 10) (py_round_pos _ Hmax))
    as Hbound.
  destruct (Utils.token_chunks_of _ _ _ _) as [|chunk chunks]; [discriminate|].
  injection Hc0 as <-. apply Forall_cons_1 in Hbound as [Hchunk _].
  pose proof (num_tokens_decode token encode decode chunk Hround). lia.
Qed.

(** With no stored message and the policy's own prompts over the
    budget, [self.messages[0]] raises. *)
Lemma prepare_chat_empty_raises h self conf system_prompt initial_prompt :
  messages self = [] →
  over_budget (num_tokens_from_string (Models.system_prompt conf +:+ prompt conf))
    (max_tokens conf) = true →
  prepare_chat h self conf system_prompt initial_prompt = Raise IndexError.
Proof.
  intros Hnil Hover. unfold Models.prepare_chat.
  destruct (append_prompt h [] "system" system_prompt) as [h1 p1].
  destruct (append_prompt h1 p1 "user" initial_prompt) as [h2 p2].
  rewrite Hnil. simpl.
  unfold Models.conversation_token_count, user_token_count. simpl.
  replace (Utils.num_tokens_from_string token encode "") with 0 by done.
  by rewrite Z.add_0_r, Hover.
Qed.

End PrepareChat.

Section PrepareChatScenario.

Import Models Scenario CharTokenizer.

(** C1 at three stored turns of the pangram and a budget of 10 tokens:
    the stored history is cut down to the last turn, and that turn to
    its first 9 tokens, but the returned sequence still holds all three
    turns, 95 tokens for a budget of 10 and no prompt. *)
Theorem prepare_chat_returns_dropped_turns :
  ∃ h',
    prepare_chat token encode decode three_turns three_turn_conversation
      tight_settings "" ""
    = Ok ([0; 1; 2]%nat, h', {| messages := [2%nat]; last_updated := 0%Q |})
    ∧ view h' [0; 1; 2]%nat
      = [{| role := "user"; content := pangram |};
         {| role := "assistant"; content := pangram |};
         {| role := "user"; content := "the quick" |}]
    ∧ tokens_of token encode h' [0; 1; 2]%nat = 95
    ∧ max_tokens tight_settings = 10.
Proof.
  eexists. split; [vm_compute; reflexivity|]. by vm_compute.
Qed.

(** C2 at an empty conversation and the default policy with a budget of
    10 tokens: [prepare_chat] raises [IndexError]. *)
Theorem prepare_chat_raises_on_empty_history :
  prepare_chat token encode decode [] Conversation_default
    (with_max_tokens 10 GuildSettings_default) "" ""
  = Raise IndexError.
Proof.
  apply prepare_chat_empty_raises; reflexivity.
Qed.

(** A single stored message with no content raises as well: the split
    of the empty text has no first chunk. *)
Lemma prepare_chat_raises_on_empty_content :
  prepare_chat token encode decode [{| role := "user"; content := "" |}]
    {| messages := [0%nat]; last_updated := 0%Q |}
    (with_max_tokens 10 GuildSettings_default) "" ""
  = Raise IndexError.
Proof. reflexivity. Qed.

End PrepareChatScenario.

(** * Further properties *)

(** ** token_pagify: edge cases and chunk count *)

Section TokenPagifyEdges.

Variable token : Type.
Variable encode : string → list token.
Variable decode : list token → string.

Local Abbreviation pagify_loop := (Utils.pagify_loop token).
Local Abbreviation token_chunks_of := (Utils.token_chunks_of token encode).
Local Abbreviation token_pagify := (Utils.token_pagify token encode decode).

(** With a limit below one no chunk is ever closed. *)
Lemma pagify_loop_never_full max_tokens tokens chunks cur :
  max_tokens ≤ 0 →
  pagify_loop max_tokens tokens chunks cur = (chunks, cur ++ tokens).
Proof.
  intros Hmax. revert cur.
  induction tokens as [|tok rest IH]; intros cur; simpl.
  - by rewrite app_nil_r.
  - destruct (Z.of_nat (length (cur ++ [tok])) =? max_tokens) eqn:Hfull.
    + apply Z.eqb_eq in Hfull. rewrite length_app in Hfull. simpl in Hfull. lia.
    + by rewrite IH, <- app_assoc.
Qed.

(** X1. For [max_tokens ≤ 0] nothing is split: [token_pagify] returns
    the whole text as one chunk (decoded from all its tokens), and no
    chunk when the text has no token. *)
Theorem token_pagify_nonpositive_limit text max_tokens :
  max_tokens ≤ 0 →
  token_pagify text max_tokens
  = match encode text with
    | [] => []
    | _ :: _ => [decode (encode text)]
    end.
Proof.
  intros Hmax. unfold Utils.token_pagify, Utils.token_chunks_of.
  rewrite pagify_loop_never_full by done. simpl.
  by destruct (encode text).
Qed.

Lemma token_pagify_nil_inv text max_tokens :
  token_pagify text max_tokens = [] → encode text = [].
Proof.
  unfold Utils.token_pagify. intros Hnil. apply fmap_nil_inv in Hnil.
  by rewrite <- (token_chunks_concat token encode text max_tokens), Hnil.
Qed.

(** X2. For every limit, [token_pagify] returns no chunk exactly when
    the text encodes to no token: a text with a token always has a
    first chunk. *)
Theorem token_pagify_nil_iff text max_tokens :
  token_pagify text max_tokens = [] ↔ encode text = [].
Proof.
  split; [apply token_pagify_nil_inv|].
  intros Hnil. unfold Utils.token_pagify, Utils.token_chunks_of.
  by rewrite Hnil.
Qed.

Lemma concat_full_length (max_tokens : Z) (full : list (list token)) :
  Forall (λ c, Z.of_nat (length c) = max_tokens) full →
  Z.of_nat (length (concat full)) = max_tokens * Z.of_nat (length full).
Proof.
  induction 1 as [|c full Hc _ IH]; simpl; [lia|].
  rewrite length_app. lia.
Qed.

(** X3. For [max_tokens ≥ 1] the number of chunks is the number of
    tokens divided by [max_tokens], rounded up. *)
Theorem token_pagify_chunk_count text max_tokens :
  1 ≤ max_tokens →
  Z.of_nat (length (token_pagify text max_tokens))
  = (Z.of_nat (length (encode text)) + max_tokens - 1) / max_tokens.
Proof.
  intros Hmax. unfold Utils.token_pagify. rewrite length_map.
  destruct (token_chunks_shape token encode text max_tokens Hmax)
    as (full & last & Heq & Hfull & Hlast).
  rewrite <- (token_chunks_concat token encode text max_tokens), Heq.
  rewrite concat_app, !length_app, !Nat2Z.inj_add.
  rewrite (concat_full_length max_tokens full Hfull).
  set (k := Z.of_nat (length full)).
  destruct Hlast as [->|(c & -> & Hc)]; simpl.
  - apply Z.div_unique with (r := max_tokens - 1); lia.
  - rewrite app_nil_r.
    apply Z.div_unique with (r := Z.of_nat (length c) - 1); lia.
Qed.

End TokenPagifyEdges.

Section TokenPagifyEdgesWitnesses.

Import CharTokenizer.

Lemma token_pagify_nonpositive_limit_witness :
  Utils.token_pagify token encode decode "abcdef" 0 = ["abcdef"].
Proof.
  apply (token_pagify_nonpositive_limit token encode decode "abcdef" 0). lia.
Defined.

Lemma token_pagify_chunk_count_witness :
  Z.of_nat (length (Utils.token_pagify token encode decode "abcdefgh" 3))
  = (Z.of_nat (length (encode "abcdefgh")) + 3 - 1) / 3.
Proof.
  apply (token_pagify_chunk_count token encode decode "abcdefgh" 3). lia.
Defined.

End TokenPagifyEdgesWitnesses.

(** ** Conversation: more on retention *)

Section RetentionMore.

Import Models.

Lemma slice_from_suffix {A : Type} (l : list A) (start : Z) :
  slice_from l start `suffix_of` l.
Proof. unfold slice_from. destruct (start <? 0); apply suffix_drop. Qed.

(** X4. For every policy, negative fields included, [cleanup] only
    removes messages from the old end: what it leaves is a suffix of
    the message list, in the same order, and [last_updated] is not
    touched. *)
Theorem cleanup_keeps_a_suffix now self conf :
  messages (cleanup now self conf) `suffix_of` messages self
  ∧ last_updated (cleanup now self conf) = last_updated self.
Proof.
  unfold cleanup.
  destruct (is_expired now self conf || (max_retention conf =? 0)); simpl.
  - split; [apply suffix_nil|done].
  - destruct (negb (max_retention conf =? 0)); simpl; [|done].
    split; [apply slice_from_suffix|done].
Qed.

Lemma is_expired_last_updated now self self' conf :
  last_updated self' = last_updated self →
  is_expired now self' conf = is_expired now self conf.
Proof. unfold is_expired. by intros ->. Qed.

(** X5. With [max_retention ≥ 0], a second [cleanup] at the same time
    changes nothing. *)
Theorem cleanup_idempotent now self conf :
  0 ≤ max_retention conf →
  cleanup now (cleanup now self conf) conf = cleanup now self conf.
Proof.
  intros Hpos.
  assert (Hexp : is_expired now (cleanup now self conf) conf
                 = is_expired now self conf).
  { apply is_expired_last_updated, cleanup_keeps_a_suffix. }
  unfold cleanup at 1. rewrite Hexp. unfold cleanup.
  destruct (is_expired now self conf || (max_retention conf =? 0)) eqn:Hclear;
    [done|].
  apply orb_false_iff in Hclear as [_ Hzero]. rewrite Hzero. simpl.
  apply Z.eqb_neq in Hzero. f_equal.
  rewrite !slice_from_last by lia. rewrite length_drop.
  replace (length (messages self) - (length (messages self)
             - Z.to_nat (max_retention conf))
           - Z.to_nat (max_retention conf))%nat with 0%nat by lia.
  done.
Qed.

Lemma cleanup_idempotent_witness :
  cleanup 100%Q
    (cleanup 100%Q {| messages := [0; 1; 2; 3; 4]%nat; last_updated := 90%Q |}
       Scenario.tight_settings)
    Scenario.tight_settings
  = cleanup 100%Q {| messages := [0; 1; 2; 3; 4]%nat; last_updated := 90%Q |}
      Scenario.tight_settings.
Proof.
  apply (cleanup_idempotent 100%Q
           {| messages := [0; 1; 2; 3; 4]%nat; last_updated := 90%Q |}
           Scenario.tight_settings).
  simpl. lia.
Defined.

(** X6. A negative [max_retention] is taken as a number of messages to
    drop: on a conversation that is not expired, each [cleanup] removes
    the [- max_retention] oldest messages. *)
Theorem cleanup_negative_retention now self conf :
  max_retention conf < 0 →
  is_expired now self conf = false →
  messages (cleanup now self conf)
  = drop (Z.to_nat (- max_retention conf)) (messages self).
Proof.
  intros Hneg Hexp. unfold cleanup. rewrite Hexp.
  destruct (max_retention conf =? 0) eqn:Hzero;
    [apply Z.eqb_eq in Hzero; lia|].
  simpl. unfold slice_from.
  destruct (- max_retention conf <? 0) eqn:Hlt; [apply Z.ltb_lt in Hlt; lia|done].
Qed.

Lemma cleanup_negative_retention_witness :
  messages
    (cleanup 100%Q {| messages := [0; 1; 2; 3; 4]%nat; last_updated := 90%Q |}
       (Scenario.with_max_retention (-2) Scenario.tight_settings))
  = [2; 3; 4]%nat.
Proof.
  apply (cleanup_negative_retention 100%Q
           {| messages := [0; 1; 2; 3; 4]%nat; last_updated := 90%Q |}
           (Scenario.with_max_retention (-2) Scenario.tight_settings)).
  - simpl. lia.
  - reflexivity.
Defined.

(** X7. Expiry is monotone in time: a conversation expired at one time
    is expired at every later time, as long as it is not updated. *)
Theorem is_expired_monotone now now' self conf :
  (now <= now')%Q →
  is_expired now self conf = true →
  is_expired now' self conf = true.
Proof.
  intros Hle Hexp. apply is_expired_iff in Hexp as [Hne Hlt].
  apply is_expired_iff. split; [done|].
  eapply Qlt_le_trans; [exact Hlt|].
  apply Qplus_le_l. exact Hle.
Qed.

Lemma is_expired_monotone_witness :
  is_expired 5000%Q {| messages := []; last_updated := 1000%Q |}
    GuildSettings_default = true.
Proof.
  apply (is_expired_monotone 4600%Q 5000%Q
           {| messages := []; last_updated := 1000%Q |} GuildSettings_default).
  - by vm_compute.
  - reflexivity.
Defined.

(** X8. The message just added survives a [cleanup]: after
    [update_messages], a [cleanup] under a policy that retains at least
    one message, run before the conversation expires, leaves a list
    whose last entry is the new message. *)
Theorem update_then_cleanup_keeps_newest now now' h self conf message role :
  1 ≤ max_retention conf →
  is_expired now' (update_messages now h self message role).2 conf = false →
  last (messages (cleanup now' (update_messages now h self message role).2 conf))
  = Some (length h)
  ∧ (update_messages now h self message role).1 !! length h
    = Some {| role := role; content := message |}.
Proof.
  intros Hkeep Hexp. split; [|simpl; by rewrite list_lookup_middle].
  unfold cleanup. rewrite Hexp.
  destruct (max_retention conf =? 0) eqn:Hzero;
    [apply Z.eqb_eq in Hzero; lia|].
  simpl. rewrite slice_from_last by lia.
  rewrite length_app. simpl.
  rewrite drop_app_le by lia. by rewrite last_snoc.
Qed.

Lemma update_then_cleanup_keeps_newest_witness :
  last (messages
          (cleanup 10%Q
             (update_messages 10%Q Scenario.three_turns
                Scenario.three_turn_conversation "hello" "user").2
             Scenario.tight_settings))
  = Some 3%nat
  ∧ (update_messages 10%Q Scenario.three_turns
       Scenario.three_turn_conversation "hello" "user").1 !! 3%nat
    = Some {| role := "user"; content := "hello" |}.
Proof.
  apply (update_then_cleanup_keeps_newest 10%Q 10%Q Scenario.three_turns
           Scenario.three_turn_conversation Scenario.tight_settings
           "hello" "user").
  - simpl. lia.
  - reflexivity.
Defined.

End RetentionMore.

(** ** Conversation.prepare_chat: frame, normal path, failures *)

Section PrepareChatMore.

Import Models.

Variable token : Type.
Variable encode : string → list token.
Variable decode : list token → string.

Local Abbreviation num_tokens_from_string := (Utils.num_tokens_from_string token encode).
Local Abbreviation user_token_count := (Models.user_token_count token encode).
Local Abbreviation conversation_token_count := (Models.conversation_token_count token encode).
Local Abbreviation drop_oldest := (Models.drop_oldest token encode).
Local Abbreviation prepare_chat := (Models.prepare_chat token encode decode).

Lemma append_prompt_alloc h prepared r p :
  append_prompt h prepared r p
  = (h ++ prompt_turn r p, prepared ++ seq (length h) (length (prompt_turn r p))).
Proof.
  unfold append_prompt, prompt_turn. destruct (truthy p); simpl; [done|].
  by rewrite !app_nil_r.
Qed.

Lemma prompt_turn_length r p : (length (prompt_turn r p) ≤ 1)%nat.
Proof. unfold prompt_turn. destruct (truthy p); simpl; lia. Qed.

Lemma content_at_alloc (h ext : store) l :
  (l < length h)%nat → content_at (h ++ ext) l = content_at h l.
Proof. intros Hl. unfold content_at. by rewrite lookup_app_l. Qed.

Lemma user_token_count_alloc (h ext : store) self :
  Forall (λ l, l < length h)%nat (messages self) →
  user_token_count (h ++ ext) self = user_token_count h self.
Proof.
  intros Hwf. unfold Models.user_token_count. f_equal.
  induction Hwf as [|l ls Hl _ IH]; simpl; [done|].
  by rewrite content_at_alloc, IH.
Qed.

Lemma conversation_token_count_alloc (h ext : store) self conf :
  Forall (λ l, l < length h)%nat (messages self) →
  conversation_token_count (h ++ ext) self conf
  = conversation_token_count h self conf.
Proof.
  intros Hwf. unfold Models.conversation_token_count.
  by rewrite user_token_count_alloc.
Qed.

Lemma drop_oldest_within_budget h conf last_upd msgs :
  over_budget
    (conversation_token_count h
       {| messages := msgs; last_updated := last_upd |} conf)
    (max_tokens conf) = false →
  drop_oldest h conf last_upd msgs = msgs.
Proof.
  intros Hwithin. destruct msgs as [|m [|m' rest]]; [done|done|].
  by rewrite drop_oldest_cons, Hwithin.
Qed.

Lemma view_seq_alloc (h ext : store) :
  view (h ++ ext) (seq (length h) (length ext)) = ext.
Proof.
  revert h. induction ext as [|m ext IH]; intros h; [done|].
  simpl. unfold view in *. cbn. rewrite list_lookup_middle by done.
  f_equal. specialize (IH (h ++ [m])).
  rewrite length_app, <- app_assoc in IH. simpl in IH.
  rewrite Nat.add_1_r in IH. exact IH.
Qed.

(** X10. The normal path: on a conversation within the budget,
    [prepare_chat] returns, leaves the conversation and every existing
    dict as they are, and what it returns reads as the system turn (if
    [system_prompt] is not empty), the user turn (if [initial_prompt] is
    not empty) and the stored history, in that order. *)
Theorem prepare_chat_within_budget h self conf system_prompt initial_prompt :
  Forall (λ l, l < length h)%nat (messages self) →
  over_budget (conversation_token_count h self conf) (max_tokens conf) = false →
  ∃ prepared h',
    prepare_chat h self conf system_prompt initial_prompt
    = Ok (prepared, h', self)
    ∧ view h' prepared
      = prompt_turn "system" system_prompt
        ++ prompt_turn "user" initial_prompt
        ++ view h (messages self)
    ∧ h `prefix_of` h'.
Proof.
  intros Hwf Hwithin. unfold Models.prepare_chat.
  rewrite !append_prompt_alloc. simpl.
  set (sys := prompt_turn "system" system_prompt).
  set (usr := prompt_turn "user" initial_prompt).
  assert (Hcount : conversation_token_count ((h ++ sys) ++ usr)
                     {| messages := messages self;
                        last_updated := last_updated self |} conf
                   = conversation_token_count h self conf).
  { rewrite <- app_assoc, conversation_token_count_alloc by done.
    by destruct self. }
  rewrite drop_oldest_within_budget by (by rewrite Hcount).
  rewrite Hcount, Hwithin.
  eexists _, _. split; [by destruct self|]. split.
  - assert (E1 : view ((h ++ sys) ++ usr) (seq (length h) (length sys)) = sys).
    { rewrite view_alloc; [apply view_seq_alloc|].
      apply Forall_forall. intros l Hl. apply elem_of_seq in Hl.
      rewrite length_app. lia. }
    assert (E2 : view ((h ++ sys) ++ usr) (seq (length (h ++ sys)) (length usr))
                 = usr) by apply view_seq_alloc.
    rewrite !view_app, E1, E2. rewrite <- (app_assoc h sys usr).
    rewrite (view_alloc h (sys ++ usr) (messages self) Hwf).
    by rewrite <- app_assoc.
  - rewrite <- app_assoc. by eexists.
Qed.

Lemma set_content_lookup (h : store) l s l' :
  set_content h l s !! l'
  = if decide (l = l')
    then (λ m, {| role := role m; content := s |}) <$> h !! l
    else h !! l'.
Proof.
  unfold set_content. destruct (h !! l) as [m|] eqn:Hl.
  - destruct (decide (l = l')) as [<-|Hne].
    + rewrite list_lookup_insert_eq; [done|]. by eapply lookup_lt_Some.
    + by rewrite list_lookup_insert_ne.
  - destruct (decide (l = l')) as [<-|Hne]; [by rewrite Hl|done].
Qed.

Lemma item0_head {A : Type} (l : list A) (x : A) :
  item0 l = Ok x → head l = Some x.
Proof. destruct l; [discriminate|]. by intros [= ->]. Qed.

Lemma set_content_length (h : store) l s :
  length (set_content h l s) = length h.
Proof. unfold set_content. destruct (h !! l); [apply length_insert|done]. Qed.

(** X9. What a returning [prepare_chat] may touch.  It keeps
    [last_updated]; it shortens the stored list from the old end only;
    it allocates at most two dicts (the prompt turns) and the returned
    list is their references followed by the whole list as it stood at
    the call; an existing dict keeps its role, and keeps its content
    unless it is the one left at the head of the stored list. *)
Theorem prepare_chat_frame h self conf system_prompt initial_prompt
    prepared h' self' :
  prepare_chat h self conf system_prompt initial_prompt = Ok (prepared, h', self') →
  last_updated self' = last_updated self
  ∧ messages self' `suffix_of` messages self
  ∧ (length h ≤ length h' ≤ length h + 2)%nat
  ∧ (∃ prompts,
       prepared = prompts ++ messages self
       ∧ Forall (λ l, length h ≤ l < length h')%nat prompts)
  ∧ (∀ l m, h !! l = Some m →
       ∃ m', h' !! l = Some m'
             ∧ role m' = role m
             ∧ (content m' ≠ content m → head (messages self') = Some l)).
Proof.
  unfold Models.prepare_chat. rewrite !append_prompt_alloc. simpl.
  set (sys := prompt_turn "system" system_prompt).
  set (usr := prompt_turn "user" initial_prompt).
  set (h2 := (h ++ sys) ++ usr).
  set (msgs' := drop_oldest h2 conf (last_updated self) (messages self)).
  pose proof (prompt_turn_length "system" system_prompt) as Hsys.
  pose proof (prompt_turn_length "user" initial_prompt) as Husr.
  fold sys in Hsys. fold usr in Husr.
  assert (Hlen2 : length h2 = (length h + length sys + length usr)%nat).
  { subst h2. by rewrite !length_app. }
  assert (Hkeep : ∀ l m, h !! l = Some m → h2 !! l = Some m).
  { intros l m Hl. subst h2. rewrite <- app_assoc. by apply lookup_app_l_Some. }
  assert (Hprompts :
    Forall (λ l, length h ≤ l < length h2)%nat
      (seq (length h) (length sys) ++ seq (length (h ++ sys)) (length usr))).
  { apply Forall_app. split; apply Forall_forall; intros l Hl;
      apply elem_of_seq in Hl; rewrite ?length_app in *; lia. }
  intros H.
  assert (Hcases :
    (h' = h2 ∨ ∃ m0 c0, head msgs' = Some m0 ∧ h' = set_content h2 m0 c0)
    ∧ prepared = (seq (length h) (length sys)
                  ++ seq (length (h ++ sys)) (length usr)) ++ messages self
    ∧ self' = {| messages := msgs'; last_updated := last_updated self |}).
  { destruct (over_budget _ _).
    - apply result_bind_Ok in H as (m0 & Hm0 & H).
      apply result_bind_Ok in H as (c0 & _ & H).
      injection H as <- <- <-. split_and!; [|done|done].
      right. exists m0, c0. split; [|done].
      simpl in Hm0. by apply item0_head.
    - injection H as <- <- <-. split_and!; [by left|done|done]. }
  destruct Hcases as (Hstore & -> & ->). simpl.
  assert (Hlen : length h' = length h2).
  { destruct Hstore as [->|(m0 & c0 & _ & ->)]; [done|apply set_content_length]. }
  split_and!.
  - done.
  - apply drop_oldest_suffix.
  - lia.
  - lia.
  - eexists. split; [done|]. by rewrite Hlen.
  - intros l m Hl. apply Hkeep in Hl.
    destruct Hstore as [->|(m0 & c0 & Hhead & ->)]; [by exists m|].
    rewrite set_content_lookup. destruct (decide (m0 = l)) as [->|Hne].
    + rewrite Hl. simpl. eexists. split; [done|]. split; [done|].
      by intros _.
    + by exists m.
Qed.

(** X11. [prepare_chat] returns on every conversation that holds a
    message, provided each stored message encodes to at least one
    token: the two cases in which it raises are an empty message list
    and a last message with nothing to split. *)
Theorem prepare_chat_returns h self conf system_prompt initial_prompt :
  Forall (λ l, l < length h)%nat (messages self) →
  messages self ≠ [] →
  (∀ l, l ∈ messages self → encode (content_at h l) ≠ []) →
  ∃ r, prepare_chat h self conf system_prompt initial_prompt = Ok r.
Proof.
  intros Hwf Hne Htok. unfold Models.prepare_chat.
  rewrite !append_prompt_alloc. simpl.
  set (h2 := (h ++ _) ++ _).
  set (msgs' := drop_oldest h2 conf (last_updated self) (messages self)).
  destruct (over_budget _ _); [|by eexists].
  destruct msgs' as [|m0 rest] eqn:Hmsgs.
  { destruct (drop_oldest_stops token encode h2 conf (last_updated self)
                (messages self)) as [_ Hnil].
    fold msgs' in Hnil. rewrite Hmsgs in Hnil. exfalso. by apply Hne, Hnil. }
  simpl.
  assert (m0 ∈ messages self) as Hin.
  { assert (msgs' `suffix_of` messages self) as [k Hk]
      by apply drop_oldest_suffix.
    rewrite Hk, Hmsgs. apply elem_of_app. right. constructor. }
  assert (content_at h2 m0 = content_at h m0) as Hcontent.
  { subst h2. rewrite <- app_assoc. apply content_at_alloc.
    rewrite Forall_forall in Hwf. by apply Hwf. }
  destruct (Utils.token_pagify token encode decode (content_at h2 m0) _)
    as [|c0 chunks] eqn:Hchunks; [|by eexists].
  apply token_pagify_nil_inv in Hchunks. rewrite Hcontent in Hchunks.
  by apply Htok in Hin.
Qed.


End PrepareChatMore.

Section PrepareChatMoreWitnesses.

Import Models Scenario CharTokenizer.

Lemma three_turns_wf :
  Forall (λ l, l < length three_turns)%nat (messages three_turn_conversation).
Proof. repeat constructor. Qed.

Lemma prepare_chat_frame_witness :
  ∃ h',
    last_updated {| messages := [2%nat]; last_updated := 0%Q |}
    = last_updated three_turn_conversation
    ∧ [2%nat] `suffix_of` messages three_turn_conversation
    ∧ (length three_turns ≤ length h' ≤ length three_turns + 2)%nat
    ∧ (∃ prompts,
         [0; 1; 2]%nat = prompts ++ messages three_turn_conversation
         ∧ Forall (λ l, length three_turns ≤ l < length h')%nat prompts)
    ∧ (∀ l m, three_turns !! l = Some m →
         ∃ m', h' !! l = Some m'
               ∧ role m' = role m
               ∧ (content m' ≠ content m → head [2%nat] = Some l)).
Proof.
  eexists.
  apply (prepare_chat_frame token encode decode three_turns
           three_turn_conversation tight_settings "" "" [0; 1; 2]%nat _
           {| messages := [2%nat]; last_updated := 0%Q |}).
  vm_compute. reflexivity.
Defined.

Lemma prepare_chat_within_budget_witness :
  ∃ prepared h',
    prepare_chat token encode decode three_turns three_turn_conversation
      GuildSettings_default "be brief" ""
    = Ok (prepared, h', three_turn_conversation)
    ∧ view h' prepared
      = prompt_turn "system" "be brief" ++ prompt_turn "user" ""
        ++ view three_turns (messages three_turn_conversation)
    ∧ three_turns `prefix_of` h'.
Proof.
  apply (prepare_chat_within_budget token encode decode three_turns
           three_turn_conversation GuildSettings_default "be brief" "").
  - apply three_turns_wf.
  - reflexivity.
Defined.

Lemma prepare_chat_returns_witness :
  ∃ r,
    prepare_chat token encode decode three_turns three_turn_conversation
      tight_settings "" ""
    = Ok r.
Proof.
  apply (prepare_chat_returns token encode decode three_turns
           three_turn_conversation tight_settings "" "").
  - apply three_turns_wf.
  - discriminate.
  - intros l Hl.
    apply elem_of_cons in Hl as [->|Hl]; [discriminate|].
    apply elem_of_cons in Hl as [->|Hl]; [discriminate|].
    apply elem_of_cons in Hl as [->|Hl]; [discriminate|].
    by apply not_elem_of_nil in Hl.
Defined.


End PrepareChatMoreWitnesses.

(** ** get_related_embeddings: how many, which ones, negative top_n *)

Section RelatedMore.

Import Models.

Variable cosine_similarity : list Q → list Q → Q.

Local Abbreviation strings_and_relatedness :=
  (Models.strings_and_relatedness cosine_similarity).
Local Abbreviation get_related_embeddings :=
  (Models.get_related_embeddings cosine_similarity).

(** The stored entries that pass the threshold, in storage order. *)
Local Abbreviation qualifying self query_embedding :=
  (filter (λ i : string * Q, Qle_bool (min_relatedness self) (snd i) = true)
     (strings_and_relatedness self query_embedding)).

(** Past the early return, the result is a slice of the sorted
    qualifying entries. *)
Lemma get_related_embeddings_slice self query_embedding :
  top_n self ≠ 0 → query_embedding ≠ [] → embeddings self ≠ [] →
  get_related_embeddings self query_embedding
  = slice_to (sort_desc (qualifying self query_embedding)) (top_n self).
Proof.
  intros Htop Hquery Hstore. unfold Models.get_related_embeddings.
  apply Z.eqb_neq in Htop. rewrite Htop.
  by rewrite !bool_decide_eq_false_2.
Qed.

Lemma qualifying_empty_store self query_embedding :
  embeddings self = [] → qualifying self query_embedding = [].
Proof.
  intros Hnil. unfold Models.strings_and_relatedness. by rewrite Hnil.
Qed.

(** With a query and [top_n ≥ 0], the result is the first [top_n] of
    the sorted qualifying entries. *)
Lemma get_related_embeddings_take self query_embedding :
  0 ≤ top_n self → query_embedding ≠ [] →
  get_related_embeddings self query_embedding
  = take (Z.to_nat (top_n self)) (sort_desc (qualifying self query_embedding)).
Proof.
  intros Htop Hquery.
  destruct (decide (top_n self = 0)) as [Hzero|Hzero].
  { unfold Models.get_related_embeddings. rewrite Hzero. done. }
  destruct (decide (embeddings self = [])) as [Hnil|Hnil].
  { unfold Models.get_related_embeddings.
    rewrite (bool_decide_eq_true_2 (embeddings self = [])) by done.
    rewrite !orb_true_r, qualifying_empty_store by done. simpl.
    by rewrite take_nil. }
  rewrite get_related_embeddings_slice by done.
  by apply slice_to_take.
Qed.

(** X13. With a non-empty query and [top_n ≥ 0], the result holds as
    many entries as qualify, up to [top_n]: no qualifying entry is left
    out while there is room. *)
Theorem get_related_embeddings_count self query_embedding :
  0 ≤ top_n self → query_embedding ≠ [] →
  length (get_related_embeddings self query_embedding)
  = Nat.min (Z.to_nat (top_n self)) (length (qualifying self query_embedding)).
Proof.
  intros Htop Hquery. rewrite get_related_embeddings_take by done.
  by rewrite length_take, (Permutation_length (sort_desc_perm _)).
Qed.

(** X14. With a non-empty query and [top_n ≥ 0], the qualifying
    entries are the result and a rest, and no entry of the rest has a
    higher similarity than an entry of the result: what is cut off is
    the low end. *)
Theorem get_related_embeddings_best_first self query_embedding :
  0 ≤ top_n self → query_embedding ≠ [] →
  ∃ rest,
    get_related_embeddings self query_embedding ++ rest
      ≡ₚ qualifying self query_embedding
    ∧ ∀ a b, a ∈ get_related_embeddings self query_embedding → b ∈ rest →
        (snd b <= snd a)%Q.
Proof.
  intros Htop Hquery. rewrite get_related_embeddings_take by done.
  set (sorted := sort_desc (qualifying self query_embedding)).
  exists (drop (Z.to_nat (top_n self)) sorted). split.
  - rewrite take_drop. apply sort_desc_perm.
  - intros a b Ha Hb.
    pose proof (sort_desc_sorted (qualifying self query_embedding)) as Hsorted.
    fold sorted in Hsorted.
    rewrite <- (take_drop (Z.to_nat (top_n self)) sorted) in Hsorted.
    by apply (StronglySorted_app_1_elem_of _ _ _ a b) in Hsorted.
Qed.

(** X15. A negative [top_n] is taken as a number of entries to leave
    out: with a query and a store, the result is the sorted qualifying
    entries without the last [- top_n] of them. *)
Theorem get_related_embeddings_negative_top_n self query_embedding :
  top_n self < 0 → query_embedding ≠ [] → embeddings self ≠ [] →
  get_related_embeddings self query_embedding
    `prefix_of` sort_desc (qualifying self query_embedding)
  ∧ length (get_related_embeddings self query_embedding)
    = (length (qualifying self query_embedding) - Z.to_nat (- top_n self))%nat.
Proof.
  intros Hneg Hquery Hstore.
  rewrite get_related_embeddings_slice by (done || lia).
  unfold slice_to. destruct (0 <=? top_n self) eqn:Hle;
    [apply Z.leb_le in Hle; lia|].
  split; [apply prefix_take|].
  rewrite length_take, (Permutation_length (sort_desc_perm _)). lia.
Qed.

End RelatedMore.

Section RelatedMoreWitnesses.

Import Models Scenario.

Lemma get_related_embeddings_count_witness :
  length (get_related_embeddings dot related_settings [1%Q]) = 2%nat.
Proof.
  apply (get_related_embeddings_count dot related_settings [1%Q]);
    [simpl; lia|discriminate].
Defined.

Lemma get_related_embeddings_best_first_witness :
  ∃ rest,
    get_related_embeddings dot related_settings [1%Q] ++ rest
      ≡ₚ filter (λ i : string * Q,
                   Qle_bool (min_relatedness related_settings) (snd i) = true)
           (strings_and_relatedness dot related_settings [1%Q])
    ∧ ∀ a b, a ∈ get_related_embeddings dot related_settings [1%Q] → b ∈ rest →
        (snd b <= snd a)%Q.
Proof.
  apply (get_related_embeddings_best_first dot related_settings [1%Q]);
    [simpl; lia|discriminate].
Defined.

Lemma get_related_embeddings_negative_top_n_witness :
  length (get_related_embeddings dot (with_top_n (-1) related_settings) [1%Q])
  = 1%nat.
Proof.
  apply (proj2 (get_related_embeddings_negative_top_n dot
                  (with_top_n (-1) related_settings) [1%Q]
                  ltac:(simpl; lia) ltac:(discriminate) ltac:(discriminate))).
Defined.

End RelatedMoreWitnesses.

(** ** The two keyed stores: Conversations and DB *)

Section KeyedStores.

Context `{Countable K}.

Implicit Types (m : gmap K nat) (k : K) (n c : nat).

Lemma registry_ok_empty : registry_ok (∅ : gmap K nat) 0.
Proof. split; intros *; by rewrite lookup_empty. Qed.

(** Adding a fresh key with the next free reference keeps a registry in
    order. *)
Lemma registry_ok_insert m n k :
  registry_ok m n → m !! k = None → registry_ok (<[k := n]> m) (S n).
Proof.
  intros [Hbound Hinj] Hfresh. split.
  - intros k' c. rewrite lookup_insert. case_decide.
    + intros [= <-]. lia.
    + intros Hk'. apply Hbound in Hk'. lia.
  - intros k1 k2 c. rewrite !lookup_insert.
    repeat case_decide; subst.
    + done.
    + intros [= <-] Hk2. apply Hbound in Hk2. lia.
    + intros Hk1 [= <-]. apply Hbound in Hk1. lia.
    + apply Hinj.
Qed.

End KeyedStores.

Section ConversationsMore.

Import Models.

(** One call: the registry stays in order, the member's key now maps
    to the returned reference, and no entry and no object is removed
    or changed. *)
Lemma get_conversation_step self objs member c self' objs' :
  registry_ok (conversations self) (length objs) →
  get_conversation self objs member = (c, self', objs') →
  registry_ok (conversations self') (length objs')
  ∧ conversations self' !! conversation_key member = Some c
  ∧ conversations self ⊆ conversations self'
  ∧ objs `prefix_of` objs'.
Proof.
  intros Hok. unfold get_conversation.
  destruct (conversations self !! conversation_key member) as [c0|] eqn:Hlook.
  - intros [= <- <- <-]. done.
  - intros [= <- <- <-]. simpl. split_and!.
    + rewrite length_app, Nat.add_1_r. by apply registry_ok_insert.
    + by rewrite lookup_insert_eq.
    + by apply insert_subseteq.
    + by eexists.
Qed.

(** X16. On a registry in order, two calls return the same
    [Conversation] object exactly when the two members have the same
    key (the two ids written one after the other). *)
Theorem get_conversation_same_object_iff self objs m1 m2 c1 self1 objs1
    c2 self2 objs2 :
  registry_ok (conversations self) (length objs) →
  get_conversation self objs m1 = (c1, self1, objs1) →
  get_conversation self1 objs1 m2 = (c2, self2, objs2) →
  c1 = c2 ↔ conversation_key m1 = conversation_key m2.
Proof.
  intros Hok Hget1 Hget2.
  destruct (get_conversation_step _ _ _ _ _ _ Hok Hget1)
    as (Hok1 & Hkey1 & _ & _).
  destruct (get_conversation_step _ _ _ _ _ _ Hok1 Hget2)
    as ([_ Hinj] & Hkey2 & Hsub & _).
  split.
  - intros <-. apply (Hinj _ _ c1); [|done].
    by eapply lookup_weaken.
  - intros Hkey.
    rewrite (get_conversation_same_key self objs m1 m2 Hkey _ _ _ Hget1) in Hget2.
    by injection Hget2.
Qed.


End ConversationsMore.

Section DatabaseFacts.

Import Database.

Lemma get_conf_step self objs guild c self' objs' :
  registry_ok (configs self) (length objs) →
  get_conf self objs guild = (c, self', objs') →
  registry_ok (configs self') (length objs')
  ∧ configs self' !! id guild = Some c
  ∧ configs self ⊆ configs self'
  ∧ objs `prefix_of` objs'.
Proof.
  intros Hok. unfold get_conf.
  destruct (configs self !! id guild) as [c0|] eqn:Hlook.
  - intros [= <- <- <-]. done.
  - intros [= <- <- <-]. simpl. split_and!.
    + rewrite length_app, Nat.add_1_r. by apply registry_ok_insert.
    + by rewrite lookup_insert_eq.
    + by apply insert_subseteq.
    + by eexists.
Qed.

(** X18. On a database in order, two calls of [get_conf] return the
    same [GuildSettings] object exactly when the two guilds have the
    same id: each guild has a policy of its own. *)
Theorem get_conf_same_object_iff self objs g1 g2 c1 self1 objs1 c2 self2 objs2 :
  registry_ok (configs self) (length objs) →
  get_conf self objs g1 = (c1, self1, objs1) →
  get_conf self1 objs1 g2 = (c2, self2, objs2) →
  c1 = c2 ↔ id g1 = id g2.
Proof.
  intros Hok Hget1 Hget2.
  destruct (get_conf_step _ _ _ _ _ _ Hok Hget1) as (Hok1 & Hkey1 & _ & _).
  destruct (get_conf_step _ _ _ _ _ _ Hok1 Hget2)
    as ([_ Hinj] & Hkey2 & Hsub & _).
  split.
  - intros <-. apply (Hinj _ _ c1); [|done]. by eapply lookup_weaken.
  - intros Hid. unfold get_conf in Hget2. rewrite <- Hid, Hkey1 in Hget2.
    by injection Hget2.
Qed.

(** X19. The first [get_conf] for a guild stores the default policy
    for it; a later call finds that object and changes neither the
    database nor any object, so that what was written to the policy in
    between is still there. *)
Theorem get_conf_creates_once self objs guild c self' objs' conf :
  configs self !! id guild = None →
  get_conf self objs guild = (c, self', objs') →
  objs' !! c = Some Models.GuildSettings_default
  ∧ get_conf self' (<[c := conf]> objs') guild = (c, self', <[c := conf]> objs')
  ∧ <[c := conf]> objs' !! c = Some conf.
Proof.
  intros Hnew. unfold get_conf. rewrite Hnew. intros [= <- <- <-]. simpl.
  rewrite lookup_insert_eq. split_and!.
  - by rewrite list_lookup_middle.
  - done.
  - apply list_lookup_insert_eq. rewrite length_app. simpl. lia.
Qed.

End DatabaseFacts.

Section KeyedStoresWitnesses.

Import Models Scenario.

Lemma get_conversation_same_object_iff_witness :
  0%nat = 0%nat ↔ conversation_key member_1_23 = conversation_key member_12_3.
Proof.
  eapply (get_conversation_same_object_iff empty_registry [] member_1_23
            member_12_3 0%nat _ _ 0%nat).
  - apply registry_ok_empty.
  - reflexivity.
  - reflexivity.
Defined.


Lemma get_conf_same_object_iff_witness :
  0%nat = 1%nat ↔ Database.id {| Database.id := 7 |} = Database.id {| Database.id := 8 |}.
Proof.
  eapply (get_conf_same_object_iff {| Database.configs := ∅ |} []
            {| Database.id := 7 |} {| Database.id := 8 |} 0%nat _ _ 1%nat).
  - apply registry_ok_empty.
  - reflexivity.
  - reflexivity.
Defined.

Lemma get_conf_creates_once_witness :
  ∃ self' objs',
    objs' !! 0%nat = Some GuildSettings_default
    ∧ Database.get_conf self' (<[0%nat := tight_settings]> objs')
        {| Database.id := 7 |}
      = (0%nat, self', <[0%nat := tight_settings]> objs')
    ∧ <[0%nat := tight_settings]> objs' !! 0%nat = Some tight_settings.
Proof.
  eexists _, _.
  eapply (get_conf_creates_once {| Database.configs := ∅ |} []
            {| Database.id := 7 |} 0%nat _ _ tight_settings).
  - reflexivity.
  - reflexivity.
Defined.

End KeyedStoresWitnesses.

(** ** extract_message_content *)

Section MessageText.

Import Discord Formatting.

Variable isspace : ascii → bool.

Local Abbreviation lstrip := (Formatting.lstrip isspace).
Local Abbreviation rstrip := (Formatting.rstrip isspace).
Local Abbreviation strip := (Formatting.strip isspace).
Local Abbreviation extract_embed_content := (Formatting.extract_embed_content isspace).
Local Abbreviation extract_message_content := (Formatting.extract_message_content isspace).

Lemma append_cons a s t : String a s +:+ t = String a (s +:+ t).
Proof. reflexivity. Qed.

Lemma append_nil_l s : "" +:+ s = s.
Proof. reflexivity. Qed.

(** What [lstrip] leaves is empty or starts with a character that is
    no whitespace. *)
Lemma lstrip_head s :
  lstrip s = "" ∨ ∃ a r, lstrip s = String a r ∧ isspace a = false.
Proof.
  induction s as [|a s IH]; simpl; [by left|].
  destruct (isspace a) eqn:Ha; [done|]. right. by exists a, s.
Qed.

Lemma rstrip_head a r :
  isspace a = false → ∃ r', rstrip (String a r) = String a r'.
Proof.
  intros Ha. simpl. destruct (rstrip r); [|by eexists].
  rewrite Ha. by eexists.
Qed.

Lemma rstrip_idempotent s : rstrip (rstrip s) = rstrip s.
Proof.
  induction s as [|a s IH]; [done|]. simpl.
  destruct (rstrip s) as [|b r] eqn:Hr.
  - destruct (isspace a) eqn:Ha; [done|]. simpl. by rewrite Ha.
  - change (rstrip (String a (String b r)))
      with (match rstrip (String b r) with
            | "" => if isspace a then "" else String a ""
            | String c r' => String a (String c r')
            end).
    by rewrite IH.
Qed.

Lemma strip_idempotent s : strip (strip s) = strip s.
Proof.
  unfold Formatting.strip.
  destruct (lstrip_head s) as [->|(a & r & -> & Ha)]; [done|].
  destruct (rstrip_head a r Ha) as [r' Hr'].
  rewrite Hr' at 1. simpl Formatting.lstrip. rewrite Ha, <- Hr'.
  apply rstrip_idempotent.
Qed.

Lemma rstrip_app_space s a :
  isspace a = true → rstrip (s +:+ String a "") = rstrip s.
Proof.
  intros Ha. induction s as [|b s IH]; [simpl; by rewrite Ha|].
  rewrite append_cons. simpl. by rewrite IH.
Qed.

Lemma lstrip_app s t :
  lstrip (s +:+ t)
  = match lstrip s with
    | "" => lstrip t
    | String _ _ => lstrip s +:+ t
    end.
Proof.
  induction s as [|a s IH]; [done|].
  rewrite append_cons. simpl. by destruct (isspace a).
Qed.

(** A whitespace character at either end does not change the result
    of [strip]. *)
Lemma strip_app_space s a :
  isspace a = true → strip (s +:+ String a "") = strip s.
Proof.
  intros Ha. unfold Formatting.strip. rewrite lstrip_app.
  destruct (lstrip s) as [|b r] eqn:Hs; [simpl; by rewrite Ha|].
  by apply rstrip_app_space.
Qed.

Lemma strip_cons_space s a :
  isspace a = true → strip (String a s) = strip s.
Proof. intros Ha. unfold Formatting.strip. simpl. by rewrite Ha. Qed.

(** X20. When the newline is whitespace for [strip], the text of a
    message is the text of its embeds alone: [message.content] is
    tested and never copied, so it does not reach the result. *)
Theorem extract_message_content_is_embed_text message :
  isspace "010"%char = true →
  extract_message_content message = extract_embed_content (embeds message).
Proof.
  intros Hnl. unfold Formatting.extract_message_content.
  assert (Hembeds : ∀ prefix,
            strip prefix = "" →
            (∀ s, strip (prefix +:+ s) = strip s) →
            strip (match embeds message with
                   | [] => prefix
                   | _ :: _ =>
                       prefix +:+ (extract_embed_content (embeds message)
                                   +:+ newline)
                   end)
            = extract_embed_content (embeds message)).
  { intros prefix Hempty Hprefix. destruct (embeds message) as [|e es] eqn:Hes.
    - by rewrite Hempty.
    - rewrite Hprefix. unfold newline. rewrite strip_app_space by done.
      unfold Formatting.extract_embed_content. apply strip_idempotent. }
  destruct (truthy (content message)).
  - apply Hembeds.
    + unfold Formatting.strip. simpl. by rewrite Hnl.
    + intros s. rewrite !append_nil_l. unfold newline.
      rewrite append_cons, append_nil_l. by apply strip_cons_space.
  - apply Hembeds; [done|]. intros s. by rewrite append_nil_l.
Qed.

End MessageText.

Section MessageTextWitness.

Import Discord Formatting.

Lemma extract_message_content_is_embed_text_witness :
  extract_message_content isspace_ascii
    {| content := "hello";
       embeds := [{| title := Some "T"; description := None; colour := None;
                     footer := Some "foot"; fields := [] |}] |}
  = extract_embed_content isspace_ascii
      [{| title := Some "T"; description := None; colour := None;
          footer := Some "foot"; fields := [] |}].
Proof.
  apply (extract_message_content_is_embed_text isspace_ascii
           {| content := "hello";
              embeds := [{| title := Some "T"; description := None;
                            colour := None; footer := Some "foot";
                            fields := [] |}] |}).
  reflexivity.
Defined.

End MessageTextWitness.

(** ** embedding_embeds *)

Section EmbeddingPages.

Import Discord Formatting.

Variable token : Type.
Variable encode : string → list token.

Local Abbreviation entry_field := (Formatting.entry_field token encode).
Local Abbreviation page_loop := (Formatting.page_loop token encode).
Local Abbreviation pages_loop := (Formatting.pages_loop token encode).
Local Abbreviation page_of := (Formatting.page_of token encode).
Local Abbreviation embedding_embeds := (Formatting.embedding_embeds token encode).

Implicit Types (embeddings : list (string * Models.Embedding)) (place : Z).

Lemma insert_by_key_perm {A : Type} (x : string * A) l :
  insert_by_key x l ≡ₚ x :: l.
Proof.
  induction l as [|y l IH]; simpl; [done|].
  destruct (String.leb (fst x) (fst y)); [done|].
  rewrite IH. apply Permutation_swap.
Qed.

Lemma sort_by_key_perm {A : Type} (l : list (string * A)) : sort_by_key l ≡ₚ l.
Proof.
  induction l as [|x l IH]; simpl; [done|].
  by rewrite insert_by_key_perm, IH.
Qed.

(** The inner loop never indexes out of range when its indices are a
    run inside the list, and adds one field per index. *)
Lemma page_loop_run place embeddings start k num fields :
  (start + k ≤ length embeddings)%nat →
  page_loop place embeddings (seq start k) num fields
  = Ok (fields
        ++ imap (λ j em, entry_field place (num + Z.of_nat j) em)
             (take k (drop start embeddings))).
Proof.
  revert start num fields.
  induction k as [|k IH]; intros start num fields Hrun; simpl.
  - by rewrite app_nil_r.
  - destruct (embeddings !! start) as [em|] eqn:Hem;
      [|apply lookup_ge_None in Hem; lia].
    rewrite IH by lia.
    rewrite (drop_S _ _ _ Hem). simpl. rewrite <- app_assoc. simpl.
    rewrite Z.add_0_r. do 3 f_equal. apply imap_ext. intros j em' _. simpl.
    f_equal. lia.
Qed.

(** The outer loop, from page [p] on, as long as the last page it is
    to build starts inside the list. *)
Lemma pages_loop_run place embeddings pages remaining p embeds :
  (remaining = 0 ∨ 5 * (p + remaining - 1) < length embeddings)%nat →
  pages_loop place embeddings pages remaining (Z.of_nat p) (5 * p) (5 * p + 5)
    embeds
  = Ok (embeds ++ map (page_of place embeddings pages) (seq p remaining)).
Proof.
  revert p embeds.
  induction remaining as [|r IH]; intros p embeds Hlast.
  - simpl. by rewrite app_nil_r.
  - destruct Hlast as [?|Hlast]; [done|].
    cbn [Formatting.pages_loop].
    set (stop := Nat.min (5 * p + 5) (length embeddings)).
    rewrite page_loop_run by lia.
    change (mbind ?f (Ok ?x)) with (f x). cbv beta.
    assert (Hfields :
      imap (λ j em, entry_field place (0 + Z.of_nat j) em)
        (take (stop - 5 * p) (drop (5 * p) embeddings))
      = imap (λ j em, entry_field place (Z.of_nat j) em)
          (take 5 (drop (5 * p) embeddings))).
    { destruct (decide (5 * p + 5 ≤ length embeddings)%nat).
      - by replace (stop - 5 * p)%nat with 5%nat by lia.
      - rewrite !take_ge by (rewrite length_drop; lia). done. }
    rewrite app_nil_l, Hfields.
    destruct r as [|r].
    + simpl. done.
    + replace (stop + 5)%nat with (5 * S p + 5)%nat by lia.
      replace (5 * p + 5)%nat with (5 * S p)%nat by lia.
      assert (Hnext : Z.of_nat p + 1 = Z.of_nat (S p)) by lia.
      rewrite Hnext at 1.
      rewrite IH by lia. rewrite <- app_assoc. reflexivity.
Qed.

(** The pages of a non-empty dict, in closed form. *)
Lemma embedding_embeds_run embeddings place :
  embeddings ≠ [] →
  let sorted := sort_by_key embeddings in
  let pages := (Z.of_nat (length sorted) + 4) / 5 in
  embedding_embeds embeddings place
  = Ok (map (page_of place sorted pages) (seq 0 (Z.to_nat pages)))
  ∧ 1 ≤ pages.
Proof.
  intros Hne sorted pages. unfold Formatting.embedding_embeds.
  fold sorted. fold pages.
  assert (Hlen : (0 < length sorted)%nat).
  { subst sorted. rewrite (Permutation_length (sort_by_key_perm _)).
    destruct embeddings; [done|simpl; lia]. }
  assert (Hpages : 1 ≤ pages ∧ 5 * (pages - 1) < Z.of_nat (length sorted)).
  { subst pages. split; Z.div_mod_to_equations; lia. }
  split; [|lia].
  pose proof (pages_loop_run place sorted pages (Z.to_nat pages) 0 []) as Hrun.
  change (Z.of_nat 0) with 0 in Hrun. simpl in Hrun. rewrite Hrun by lia.
  change (mbind ?f (Ok ?x)) with (f x). cbv beta.
  destruct (Z.to_nat pages) as [|n] eqn:Hn; [lia|]. done.
Qed.

(** X21. [embedding_embeds] never raises.  It returns
    [ceil(len / 5)] pages, and the one embed that says there is none
    when the dict is empty; no page is empty, page [q] (from zero)
    holds five fields or what is left of the entries, and its footer
    reads [Page q+1/pages]. *)
Theorem embedding_embeds_pages embeddings place :
  ∃ embeds,
    embedding_embeds embeddings place = Ok embeds
    ∧ Z.of_nat (length embeds)
      = Z.max 1 ((Z.of_nat (length embeddings) + 4) / 5)
    ∧ (embeddings = [] → embeds = [no_embeddings])
    ∧ (embeddings ≠ [] → ∀ q e, embeds !! q = Some e →
         length (fields e) = Nat.min 5 (length embeddings - 5 * q)
         ∧ (0 < length (fields e))%nat
         ∧ footer e
           = Some ("Page " +:+ str_of_int (Z.of_nat q + 1) +:+ "/"
                   +:+ str_of_int (Z.of_nat (length embeds)))).
Proof.
  destruct (decide (embeddings = [])) as [->|Hne].
  { exists [no_embeddings]. split_and!; done. }
  destruct (embedding_embeds_run embeddings place Hne) as [Hrun Hpages].
  set (sorted := sort_by_key embeddings) in *.
  assert (Hlen : length sorted = length embeddings)
    by apply Permutation_length, sort_by_key_perm.
  rewrite Hlen in Hrun, Hpages.
  set (pages := (Z.of_nat (length embeddings) + 4) / 5) in *.
  assert (Hlast : 5 * (pages - 1) < Z.of_nat (length embeddings)).
  { subst pages. Z.div_mod_to_equations. lia. }
  eexists. split; [exact Hrun|].
  rewrite length_map, length_seq. split_and!.
  - lia.
  - done.
  - intros _ q e Hq. rewrite list_lookup_fmap in Hq.
    destruct (seq 0 (Z.to_nat pages) !! q) as [q'|] eqn:Hseq; [|done].
    apply lookup_seq in Hseq as [-> Hlt]. simpl in Hq.
    injection Hq as <-. simpl.
    rewrite length_imap, length_take, length_drop, Hlen, Z2Nat.id by lia.
    split_and!; [done|lia|done].
Qed.

(** X22. Every entry is on a page: the [i]-th entry by key is field
    [i mod 5] of page [i / 5], and it is numbered [i mod 5] there.
    Hence the marker is per page: it goes to the entry at position
    [place] of every page, and to none when [place] is not below 5. *)
Theorem embedding_embeds_entry_place embeddings place i em :
  sort_by_key embeddings !! i = Some em →
  ∃ embeds e,
    embedding_embeds embeddings place = Ok embeds
    ∧ embeds !! (i / 5)%nat = Some e
    ∧ fields e !! (i mod 5)%nat
      = Some (entry_field place (Z.of_nat (i mod 5)) em)
    ∧ name (entry_field place (Z.of_nat (i mod 5)) em)
      = if place =? Z.of_nat (i mod 5) then marker +:+ fst em else fst em.
Proof.
  intros Hi.
  assert (Hne : embeddings ≠ []).
  { intros ->. done. }
  destruct (embedding_embeds_run embeddings place Hne) as [Hrun Hpages].
  set (sorted := sort_by_key embeddings) in *.
  set (pages := (Z.of_nat (length sorted) + 4) / 5) in *.
  assert (Hlt : (i < length sorted)%nat) by (by eapply lookup_lt_Some).
  assert (Hpage : (i / 5 < Z.to_nat pages)%nat).
  { assert (Z.of_nat (i / 5) < pages); [|lia].
    rewrite Nat2Z.inj_div. subst pages. Z.div_mod_to_equations. lia. }
  pose proof (Nat.div_mod_eq i 5) as Hdiv.
  pose proof (Nat.mod_upper_bound i 5 ltac:(lia)) as Hmod.
  eexists _, _. split; [exact Hrun|]. split_and!.
  - rewrite list_lookup_fmap, lookup_seq_lt by done. done.
  - unfold Formatting.page_of. cbn [fields].
    rewrite list_lookup_imap, lookup_take_lt, lookup_drop by done.
    match goal with
    | |- context [sorted !! ?k] => replace k with i by lia
    end.
    by rewrite Hi.
  - done.
Qed.

End EmbeddingPages.

Section EmbeddingPagesWitness.

Import Discord Formatting Scenario CharTokenizer.

(** Seven entries and [place] 1: two pages, the second entry of each
    carries the marker. *)
Lemma embedding_embeds_seven_entries :
  match embedding_embeds token encode seven_entries 1 with
  | Ok embeds => map (λ e, map name (fields e)) embeds
  | Raise _ => []
  end
  = [["a"; marker +:+ "b"; "c"; "d"; "e"]; ["k"; marker +:+ "z"]].
Proof. reflexivity. Qed.

Lemma embedding_embeds_entry_place_witness :
  ∃ embeds e,
    embedding_embeds token encode seven_entries 1 = Ok embeds
    ∧ embeds !! (6 / 5)%nat = Some e
    ∧ fields e !! (6 mod 5)%nat
      = Some (entry_field token encode 1 (Z.of_nat (6 mod 5))
                ("z", {| Models.text := "z text"; Models.embedding := [] |}))
    ∧ name (entry_field token encode 1 (Z.of_nat (6 mod 5))
              ("z", {| Models.text := "z text"; Models.embedding := [] |}))
      = if 1 =? Z.of_nat (6 mod 5) then marker +:+ "z" else "z".
Proof.
  apply (embedding_embeds_entry_place token encode seven_entries 1 6%nat
           ("z", {| Models.text := "z text"; Models.embedding := [] |})).
  reflexivity.
Defined.

End EmbeddingPagesWitness.

(** ** Conversation.prepare_chat: the prompt arguments and a second call *)

Section PrepareChatStable.

Import Models.

Variable token : Type.
Variable encode : string → list token.
Variable decode : list token → string.

Local Abbreviation num_tokens_from_string := (Utils.num_tokens_from_string token encode).
Local Abbreviation token_chunks_of := (Utils.token_chunks_of token encode).
Local Abbreviation token_pagify := (Utils.token_pagify token encode decode).
Local Abbreviation conversation_token_count := (Models.conversation_token_count token encode).
Local Abbreviation drop_oldest := (Models.drop_oldest token encode).
Local Abbreviation prepare_chat := (Models.prepare_chat token encode decode).

Lemma Forall_suffix_of {A : Type} (P : A → Prop) (l l' : list A) :
  l' `suffix_of` l → Forall P l → Forall P l'.
Proof. intros [k ->] Hall. by apply Forall_app in Hall as [_ ?]. Qed.

(** The loop reads the stored messages only: dicts allocated after
    them do not change what it drops. *)
Lemma drop_oldest_alloc (h ext : store) conf last_upd msgs :
  Forall (λ l, l < length h)%nat msgs →
  drop_oldest (h ++ ext) conf last_upd msgs = drop_oldest h conf last_upd msgs.
Proof.
  induction msgs as [|m msgs IH]; [done|].
  destruct msgs as [|m' rest]; [done|]. intros Hwf.
  rewrite !(drop_oldest_cons token encode).
  rewrite (conversation_token_count_alloc token encode) by done.
  destruct (over_budget _ _); [|done].
  apply IH. by apply Forall_cons_1 in Hwf as [_ ?].
Qed.

Lemma view_ext (h1 h2 : store) (refs : list nat) :
  (∀ l, l ∈ refs → h1 !! l = h2 !! l) → view h1 refs = view h2 refs.
Proof.
  unfold view. induction refs as [|l refs IH]; intros Hsame; [done|].
  cbn. rewrite (Hsame l) by constructor.
  rewrite IH; [done|]. intros l' Hl'. apply Hsame. by constructor.
Qed.

(** [prepare_chat] with the loop, the count and the split read on the
    store as it was at the call. *)
Lemma prepare_chat_on_store h self conf system_prompt initial_prompt :
  Forall (λ l, l < length h)%nat (messages self) →
  let sys := prompt_turn "system" system_prompt in
  let usr := prompt_turn "user" initial_prompt in
  let prepared :=
    (seq (length h) (length sys) ++ seq (length (h ++ sys)) (length usr))
    ++ messages self in
  let self' :=
    {| messages := drop_oldest h conf (last_updated self) (messages self);
       last_updated := last_updated self |} in
  prepare_chat h self conf system_prompt initial_prompt
  = if over_budget (conversation_token_count h self' conf) (max_tokens conf)
    then
      m0 ← item0 (messages self');
      c0 ← item0 (token_pagify (content_at h m0)
                    (py_round (9 * max_tokens conf) 10));
      Ok (prepared, set_content (h ++ sys ++ usr) m0 c0, self')
    else Ok (prepared, h ++ sys ++ usr, self').
Proof.
  intros Hwf sys usr prepared self'. unfold Models.prepare_chat.
  rewrite !append_prompt_alloc. simpl. fold sys usr.
  rewrite <- (app_assoc h sys usr).
  rewrite drop_oldest_alloc by done.
  assert (Hwf' : Forall (λ l, l < length h)%nat (messages self')).
  { eapply Forall_suffix_of; [apply drop_oldest_suffix|done]. }
  change (conversation_token_count (h ++ sys ++ usr)
            {| messages := drop_oldest h conf (last_updated self) (messages self);
               last_updated := last_updated self |} conf)
    with (conversation_token_count (h ++ sys ++ usr) self' conf).
  rewrite (conversation_token_count_alloc token encode) by done.
  destruct (over_budget _ _); [|done].
  subst self'. simpl in Hwf' |- *.
  destruct (drop_oldest h conf (last_updated self) (messages self))
    as [|m0 rest]; [done|].
  simpl. rewrite content_at_alloc; [done|].
  by apply Forall_cons_1 in Hwf' as [? _].
Qed.

(** X23. The trimming does not look at the prompts it is given: the
    budget counts the policy's own [system_prompt] and [prompt].  Two
    calls that differ in the two prompt arguments only leave the same
    stored conversation, reading the same, and raise in the same
    cases. *)
Theorem prepare_chat_ignores_prompt_arguments h self conf
    system_prompt initial_prompt system_prompt' initial_prompt' :
  Forall (λ l, l < length h)%nat (messages self) →
  match prepare_chat h self conf system_prompt initial_prompt,
        prepare_chat h self conf system_prompt' initial_prompt' with
  | Ok (_, h1, self1), Ok (_, h2, self2) =>
      self1 = self2 ∧ view h1 (messages self1) = view h2 (messages self2)
  | Raise e1, Raise e2 => e1 = e2
  | _, _ => False
  end.
Proof.
  intros Hwf. rewrite !prepare_chat_on_store by done. cbv zeta.
  set (msgs' := drop_oldest h conf (last_updated self) (messages self)).
  assert (Hwf' : Forall (λ l, l < length h)%nat msgs').
  { eapply Forall_suffix_of; [apply drop_oldest_suffix|done]. }
  destruct (over_budget _ _).
  - simpl messages. destruct (item0 msgs') as [m0|e]; [|done]. simpl.
    destruct (item0 _) as [c0|e]; [|done]. simpl.
    split; [done|]. apply view_ext. intros l Hl.
    rewrite Forall_forall in Hwf'. apply Hwf' in Hl.
    rewrite !set_content_lookup.
    destruct (decide (m0 = l)) as [->|_]; by rewrite !lookup_app_l.
  - split; [done|]. simpl. by rewrite !view_alloc.
Qed.

(** A text of at most [max_tokens] tokens, and at least one, is a
    single chunk. *)
Lemma token_chunks_single text max_tokens :
  1 ≤ max_tokens →
  0 < Z.of_nat (length (encode text)) ≤ max_tokens →
  token_chunks_of text max_tokens = [encode text].
Proof.
  intros Hmax Hlen.
  destruct (token_chunks_shape token encode text max_tokens Hmax)
    as (full & last & Heq & Hfull & Hlast).
  pose proof (token_chunks_concat token encode text max_tokens) as Hcat.
  rewrite Heq in Hcat |- *. rewrite <- Hcat in Hlen.
  rewrite concat_app, length_app, Nat2Z.inj_add in Hlen.
  rewrite (concat_full_length token max_tokens full Hfull) in Hlen.
  destruct full as [|f fs].
  - destruct Hlast as [->|(c & -> & Hc)]; [simpl in Hlen; lia|].
    simpl in Hcat |- *. rewrite app_nil_r in Hcat. by rewrite Hcat.
  - assert (fs = []) as ->.
    { destruct fs; [done|]. simpl length in Hlen. nia. }
    destruct Hlast as [->|(c & -> & Hc)].
    + simpl in Hcat |- *. rewrite !app_nil_r in Hcat. by rewrite Hcat.
    + simpl in Hlen. rewrite app_nil_r in Hlen. lia.
Qed.


End PrepareChatStable.

Section PrepareChatStableWitnesses.

Import Models Scenario CharTokenizer.

Lemma prepare_chat_ignores_prompt_arguments_witness :
  match prepare_chat token encode decode three_turns three_turn_conversation
          tight_settings "" "",
        prepare_chat token encode decode three_turns three_turn_conversation
          tight_settings "be brief" "hello" with
  | Ok (_, h1, self1), Ok (_, h2, self2) =>
      self1 = self2 ∧ view h1 (messages self1) = view h2 (messages self2)
  | Raise e1, Raise e2 => e1 = e2
  | _, _ => False
  end.
Proof.
  apply (prepare_chat_ignores_prompt_arguments token encode decode three_turns
           three_turn_conversation tight_settings "" "" "be brief" "hello").
  apply three_turns_wf.
Defined.


End PrepareChatStableWitnesses.
